(** * ISC Course Finder: the filter and match pipeline of [script.js]

    A shallow embedding of the client-side catalogue filter: the CSV loader
    ([parseCSVLine], [parseCSV]), the normaliser ([normalizeText]), the
    dynamic-programming distance ([getEditDistance]), the tolerant matcher
    ([matchesWithTolerance]) and the filter/sort composer
    ([getFilteredCourses], [renderCourses]).

    Conventions of the embedding.
    - A JavaScript string is a sequence of UTF-16 code units.  The model is
      [list ascii]: the code units 0..255 (Basic Latin and Latin-1
      Supplement), on which [toLowerCase], [trim] and the regular
      expression class [\s] are modelled exactly.
    - A property that may hold [undefined] (a column missing from the header
      row) is a [jsval]; calling a method on [undefined] throws a
      [TypeError], modelled by the [result] monad.
    - Numbers that the code uses as lengths, indices and counts are [nat].
    - [loadCourses] is modelled from the outcome of its two awaits, and the
      two fillers of the datalists by the arrays they build and the markup
      they write.  The wiring of the events and the pointer handler of the
      two search boxes (focus, picker, animation frame) are left out. *)

From Stdlib Require Import Ascii String ZArith Sorted DecimalString.
From stdpp Require Import base tactics option list sorting strings gmap.

Local Open Scope nat_scope.

(** ** Strings *)

Abbreviation jsstring := (list ascii).

(** A string literal of the source. *)
Definition str (s : string) : jsstring := list_ascii_of_string s.

Definition code (c : ascii) : N := N_of_ascii c.

Definition in_range (lo hi : N) (c : ascii) : bool :=
  ((lo <=? code c) && (code c <=? hi))%N.

(** [String.prototype.toLowerCase] on one code unit below 256: [A-Z] and the
    Latin-1 capitals U+00C0..U+00DE (the multiplication sign U+00D7 apart)
    move up by 32; every other code unit of the range is unchanged. *)
Definition toLowerChar (c : ascii) : ascii :=
  if in_range 65 90 c || (in_range 192 222 c && negb (code c =? 215)%N)
  then ascii_of_N (code c + 32)
  else c.

Definition toLowerCase (s : jsstring) : jsstring := map toLowerChar s.

(** The class [\s] of a regular expression, which is also the set that
    [trim] strips: TAB, LF, VT, FF, CR, SPACE and NO-BREAK SPACE are its
    members below 256. *)
Definition isWhiteSpace (c : ascii) : bool :=
  in_range 9 13 c || (code c =? 32)%N || (code c =? 160)%N.

(** The complement of the class [[^a-z0-9\s]]: what [normalizeText] keeps. *)
Definition isKept (c : ascii) : bool :=
  in_range 97 122 c || in_range 48 57 c || isWhiteSpace c.

Fixpoint dropWhile {A} (p : A -> bool) (s : list A) : list A :=
  match s with
  | [] => []
  | c :: r => if p c then dropWhile p r else s
  end.

Definition trimStart (s : jsstring) : jsstring := dropWhile isWhiteSpace s.
Definition trimEnd (s : jsstring) : jsstring :=
  rev (dropWhile isWhiteSpace (rev s)).

(** [String.prototype.trim]. *)
Definition trim (s : jsstring) : jsstring := trimEnd (trimStart s).

Fixpoint startsWith (s sub : jsstring) : bool :=
  match sub, s with
  | [], _ => true
  | _ :: _, [] => false
  | c :: sub', d :: s' => bool_decide (c = d) && startsWith s' sub'
  end.

(** [String.prototype.includes]: [sub] occurs in [s] at some position. *)
Fixpoint includes (s sub : jsstring) : bool :=
  startsWith s sub ||
  match s with
  | [] => false
  | _ :: s' => includes s' sub
  end.

(** [value.toLowerCase().replace(/[^a-z0-9\s]/g, "").trim()] *)
Definition normalizeText (value : jsstring) : jsstring :=
  trim (List.filter isKept (toLowerCase value)).

(** ** Edit distance: the specification

    A single edit inserts, deletes or substitutes one character anywhere in
    the string; [edits n s t] says that [n] single edits in a row turn [s]
    into [t].  [lev] is the textbook recursive distance. *)

Section Levenshtein.
Context {A : Type} `{EqDecision A}.

Inductive edit1 : list A -> list A -> Prop :=
| edit_insert l c r : edit1 (l ++ r) (l ++ c :: r)
| edit_delete l c r : edit1 (l ++ c :: r) (l ++ r)
| edit_subst l c d r : edit1 (l ++ c :: r) (l ++ d :: r).

Inductive edits : nat -> list A -> list A -> Prop :=
| edits_done s : edits 0 s s
| edits_step n s u t : edit1 s u -> edits n u t -> edits (S n) s t.

Definition cost (a b : A) : nat := if decide (a = b) then 0 else 1.

Definition min3 (x y z : nat) : nat := Nat.min (Nat.min x y) z.

Fixpoint lev (s t : list A) {struct s} : nat :=
  match s with
  | [] => length t
  | a :: s' =>
      (fix lev_row (t : list A) : nat :=
         match t with
         | [] => length s
         | b :: t' =>
             min3 (lev s' t + 1) (lev_row t' + 1) (lev s' t' + cost a b)
         end) t
  end.

(** [d] is the least number of single edits that turn [s] into [t]. *)
Definition min_edits (s t : list A) (d : nat) : Prop :=
  edits d s t /\ forall n, edits n s t -> d <= n.

End Levenshtein.

(** ** Values and exceptions *)

(** The value of a property of a course record: a string, or [undefined]
    when the header row of the dataset lacks the column. *)
Inductive jsval : Type :=
| JsUndefined
| JsString (s : jsstring).

Inductive jsError : Type := TypeError.

Inductive result (A : Type) : Type :=
| Ok (a : A)
| Throw (e : jsError).
Arguments Ok {A} a.
Arguments Throw {A} e.

#[global] Instance result_ret : MRet result := fun A a => Ok a.
#[global] Instance result_bind : MBind result := fun A B f m =>
  match m with
  | Ok a => f a
  | Throw e => Throw e
  end.

(** The receiver of a method call: [undefined.toLowerCase()] throws. *)
Definition receiver (v : jsval) : result jsstring :=
  match v with
  | JsString s => Ok s
  | JsUndefined => Throw TypeError
  end.

(** [ToString], as applied by a template literal and by the argument of
    [localeCompare]. *)
Definition toStringVal (v : jsval) : jsstring :=
  match v with
  | JsString s => s
  | JsUndefined => str "undefined"
  end.

(** [!s] on a string: only the empty string is falsy. *)
Definition isEmpty (s : jsstring) : bool :=
  match s with
  | [] => true
  | _ :: _ => false
  end.

(** [v === s] for a string [s]. *)
Definition strictEq (v : jsval) (s : jsstring) : bool :=
  match v with
  | JsString x => bool_decide (x = s)
  | JsUndefined => false
  end.

(** ** The distance function *)

(** [for (let i = lo; i <= hi; i += 1) body] over a state [St]. *)
Definition for_range {St : Type} (lo hi : nat) (body : nat -> St -> St)
    (s : St) : St :=
  foldl (fun s i => body i s) s (seq lo (hi + 1 - lo)).

(** The table of the dynamic programme: an array of rows, each row an array
    of its own (the callback of [Array.from] builds a fresh one per row). *)
Abbreviation matrix := (list (list nat)).

(** [matrix[i][j]]; every read of the source is within the table. *)
Definition mget (m : matrix) (i j : nat) : nat :=
  default 0 (m !! i ≫= (.!! j)).

(** [matrix[i][j] = v] *)
Definition mset (m : matrix) (i j v : nat) : matrix :=
  alter (<[j := v]>) i m.

Definition getEditDistance (value target : jsstring) : nat :=
  let source := normalizeText value in
  let comparison := normalizeText target in
  if isEmpty source || isEmpty comparison then
    Nat.max (length source) (length comparison)
  else
    let matrix0 : matrix :=
      replicate (length source + 1) (replicate (length comparison + 1) 0) in
    let matrix1 :=
      for_range 0 (length source) (fun i m => mset m i 0 i) matrix0 in
    let matrix2 :=
      for_range 0 (length comparison) (fun j m => mset m 0 j j) matrix1 in
    let matrix3 :=
      for_range 1 (length source) (fun i m =>
        for_range 1 (length comparison) (fun j m =>
          let cost :=
            if bool_decide (source !! (i - 1) = comparison !! (j - 1))
            then 0 else 1 in
          mset m i j
            (Nat.min (Nat.min (mget m (i - 1) j + 1) (mget m i (j - 1) + 1))
                     (mget m (i - 1) (j - 1) + cost))) m) matrix2 in
    mget matrix3 (length source) (length comparison).

(** ** The tolerant matcher *)

(** [s.split(/\s+/)]: the pieces of [s] between the maximal runs of
    white space.  [current] is the piece being read; [inSeparator] holds
    right after a separator, before the next piece has begun. *)
Fixpoint splitLoop (s : jsstring) (current : jsstring) (inSeparator : bool)
  : list jsstring :=
  match s with
  | [] => [current]
  | c :: rest =>
      if isWhiteSpace c then
        if inSeparator then splitLoop rest [] true
        else current :: splitLoop rest [] true
      else splitLoop rest (current ++ [c]) false
  end.

Definition splitWhitespace (s : jsstring) : list jsstring :=
  splitLoop s [] false.

(** Numbers are binary64 doubles.  The lengths, indices and counts of the
    code are integers that the doubles hold exactly, and are [nat] here; the
    one product that is not an integer is [n * 0.2], modelled by its exact
    value.  The double nearest to 0.2 is [pointTwo / 2^54]. *)
Definition pointTwo : Z := 3602879701896397.

(** Rounding to binary64 (nearest, ties to even) of the positive real
    [p / 2^54]; the result is again a numerator over [2^54].  A double has
    53 significant bits, so the [s] low bits of a longer [p] are rounded
    away. *)
Definition roundBinary64 (p : Z) : Z :=
  let e := Z.log2 p in
  if (e <=? 52)%Z then p
  else
    let s := (e - 52)%Z in
    let q := Z.shiftr p s in
    let r := (p mod 2 ^ s)%Z in
    let half := (2 ^ (s - 1))%Z in
    let q' :=
      if (half <? r)%Z || ((r =? half)%Z && Z.odd q) then (q + 1)%Z else q in
    Z.shiftl q' s.

(** [Math.floor(n * 0.2)] *)
Definition floorTimesPointTwo (n : nat) : nat :=
  Z.to_nat (Z.shiftr (roundBinary64 (Z.of_nat n * pointTwo)) 54).

(** [Math.max(2, Math.floor(n * 0.2))] *)
Definition maxDistanceFor (n : nat) : nat := Nat.max 2 (floorTimesPointTwo n).

Definition matchesWithTolerance (query : jsstring) (text : jsval) : result bool :=
  if isEmpty query then Ok true
  else
    let normalizedQuery := normalizeText query in
    textValue ← receiver text;
    let normalizedText := normalizeText textValue in
    if includes normalizedText normalizedQuery then Ok true
    else
      let words := splitWhitespace normalizedText in
      let maxDistance := maxDistanceFor (length normalizedQuery) in
      Ok ((getEditDistance normalizedQuery normalizedText <=? maxDistance)
          || existsb (fun word =>
                        getEditDistance normalizedQuery word <=? maxDistance)
                     words).

(** ** The loader *)

Definition quoteChar : ascii := "034"%char.
Definition commaChar : ascii := ","%char.
Definition isQuote (c : ascii) : bool := bool_decide (c = quoteChar).
Definition isComma (c : ascii) : bool := bool_decide (c = commaChar).

(** The loop of [parseCSVLine] from position [i] on: [line] is what is left
    of the line at [i], so [char] is [line[i]] and [nextChar] is
    [line[i + 1]] ([undefined] at the end of the line). *)
Fixpoint parseCSVLoop (line : jsstring) (values : list jsstring)
    (current : jsstring) (inQuotes : bool) : list jsstring :=
  match line with
  | [] => values ++ [trim current]
  | char :: rest =>
      let single :=
        if isQuote char then parseCSVLoop rest values current (negb inQuotes)
        else if isComma char && negb inQuotes
        then parseCSVLoop rest (values ++ [trim current]) [] inQuotes
        else parseCSVLoop rest values (current ++ [char]) inQuotes in
      match rest with
      | nextChar :: rest' =>
          if isQuote char && isQuote nextChar
          then parseCSVLoop rest' values (current ++ [quoteChar]) inQuotes
          else single
      | [] => single
      end
  end.

Definition parseCSVLine (line : jsstring) : list jsstring :=
  parseCSVLoop line [] [] false.

Definition isLF (c : ascii) : bool := (code c =? 10)%N.
Definition isCR (c : ascii) : bool := (code c =? 13)%N.

(** [s.split(/\r?\n/)] *)
Fixpoint splitLinesLoop (s : jsstring) (current : jsstring) : list jsstring :=
  match s with
  | [] => [current]
  | c :: rest =>
      if isLF c then current :: splitLinesLoop rest []
      else
        match rest with
        | c' :: rest' =>
            if isCR c && isLF c' then current :: splitLinesLoop rest' []
            else splitLinesLoop rest (current ++ [c])
        | [] => splitLinesLoop rest (current ++ [c])
        end
  end.

Definition splitLines (s : jsstring) : list jsstring := splitLinesLoop s [].

Record course : Type := mkCourse {
  courseName : jsval;
  universityName : jsval;
  universityType : jsval;
  degreeType : jsval;
  duration : jsstring;
  language : jsval;
  courseCode : jsval;
  courseArea : jsval;
  website : jsval
}.

(** The object [row], keyed by header text. *)
Abbreviation rowObject := (gmap jsstring jsstring).

(** [row[key]] *)
Definition getProp (row : rowObject) (key : jsstring) : jsval :=
  match row !! key with
  | Some s => JsString s
  | None => JsUndefined
  end.

(** [headers.forEach((header, index) => { row[header] = values[index] ?? ""; })],
    from [index] on. *)
Fixpoint forEachHeader (headers : list jsstring) (index : nat)
    (values : list jsstring) (row : rowObject) : rowObject :=
  match headers with
  | [] => row
  | header :: rest =>
      forEachHeader rest (S index) values
        (<[header := default [] (values !! index)]> row)
  end.

Definition courseOfLine (headers : list jsstring) (line : jsstring) : course :=
  let values := parseCSVLine line in
  let row := forEachHeader headers 0 values ∅ in
  {| courseName := getProp row (str "Course Name");
     universityName := getProp row (str "University");
     universityType := getProp row (str "University Type");
     degreeType := getProp row (str "Degree Type");
     duration := toStringVal (getProp row (str "Duration")) ++ str " years";
     language := getProp row (str "Language");
     courseCode := getProp row (str "Course Code");
     courseArea := getProp row (str "Course Area");
     website := getProp row (str "Website") |}.

Definition parseCSV (csvText : jsstring) : list course :=
  let rows := splitLines (trim csvText) in
  match rows with
  | headerLine :: dataLines =>
      let headers := parseCSVLine headerLine in
      map (courseOfLine headers) dataLines
  | [] => [] (* not reached: [split] returns at least one piece *)
  end.

(** ** The filter/sort composer *)

(** The module-level collection [courses], the five controls that the code
    reads and the three parts of the page that [renderCourses] writes.
    [courseGrid] holds the records whose cards are shown, in order (the
    markup of a card is left out); [emptyStateHidden] is [emptyState.hidden]. *)
Record AppState : Type := mkAppState {
  courses : list course;
  universitySearch : jsstring;
  courseAreaSearch : jsstring;
  courseSearch : jsstring;
  degreeFilter : jsstring;
  sortFilter : jsstring;
  courseGrid : list course;
  resultsCount : jsstring;
  emptyStateHidden : bool
}.

(** [`${n}`] for a count [n]. *)
Definition numberToString (n : nat) : jsstring :=
  str (NilZero.string_of_uint (Nat.to_uint n)).

(** [array.filter(predicate)] for a predicate that may throw. *)
Fixpoint arrayFilter {A : Type} (predicate : A -> result bool) (l : list A)
  : result (list A) :=
  match l with
  | [] => Ok []
  | x :: rest =>
      keep ← predicate x;
      kept ← arrayFilter predicate rest;
      Ok (if keep : bool then x :: kept else kept)
  end.

(** [Array.prototype.sort] with a comparator.  The method is stable, and for
    a comparator that is a consistent total order every engine returns the
    same array; the model is a stable insertion sort.  A comparator that
    throws ends the sort; which pairs an engine compares is its own choice,
    and the theorems below are about records whose compared field is a
    string, where no comparison throws. *)
Fixpoint sortInsert {A : Type} (compareFn : A -> A -> result Z) (x : A)
    (sorted : list A) : result (list A) :=
  match sorted with
  | [] => Ok [x]
  | y :: rest =>
      c ← compareFn x y;
      if (c <=? 0)%Z then Ok (x :: y :: rest)
      else rest' ← sortInsert compareFn x rest; Ok (y :: rest')
  end.

Fixpoint arraySort {A : Type} (compareFn : A -> A -> result Z) (l : list A)
  : result (list A) :=
  match l with
  | [] => Ok []
  | x :: rest =>
      sorted ← arraySort compareFn rest;
      sortInsert compareFn x sorted
  end.

Section Composer.
(** [String.prototype.localeCompare] of the host: negative, zero or
    positive as the receiver sorts before, with or after the argument in
    the collation of the locale. *)
Variable localeCompare : jsstring -> jsstring -> Z.

(** [(a, b) => a.field.localeCompare(b.field)] *)
Definition compareBy (field : course -> jsval) (a b : course) : result Z :=
  this ← receiver (field a);
  Ok (localeCompare this (toStringVal (field b))).

Definition matchesCourse (universityQuery courseAreaQuery courseQuery
    degreeQuery : jsstring) (c : course) : result bool :=
  matchesUniversity ←
    (if isEmpty universityQuery then Ok true
     else name ← receiver (universityName c);
          Ok (includes (toLowerCase name) universityQuery));
  matchesCourseArea ←
    (if isEmpty courseAreaQuery then Ok true
     else area ← receiver (courseArea c);
          Ok (includes (toLowerCase area) courseAreaQuery));
  matchesCourse ← matchesWithTolerance courseQuery (courseName c);
  let matchesDegree :=
    if isEmpty degreeQuery then true
    else strictEq (degreeType c) degreeQuery in
  Ok (matchesUniversity && matchesCourseArea && matchesCourse && matchesDegree).

Definition getFilteredCourses (st : AppState) : result (list course) :=
  let universityQuery := toLowerCase (trim (universitySearch st)) in
  let courseAreaQuery := toLowerCase (trim (courseAreaSearch st)) in
  let courseQuery := toLowerCase (trim (courseSearch st)) in
  let degreeQuery := degreeFilter st in
  filtered ←
    arrayFilter
      (matchesCourse universityQuery courseAreaQuery courseQuery degreeQuery)
      (courses st);
  let sortValue := sortFilter st in
  filtered ←
    (if bool_decide (sortValue = str "university")
     then arraySort (compareBy universityName) filtered
     else Ok filtered);
  filtered ←
    (if bool_decide (sortValue = str "degree")
     then arraySort (compareBy degreeType) filtered
     else Ok filtered);
  Ok filtered.

Definition isInitialState (st : AppState) : bool :=
  isEmpty (trim (universitySearch st)) &&
  isEmpty (trim (courseAreaSearch st)) &&
  isEmpty (trim (courseSearch st)) &&
  isEmpty (degreeFilter st) &&
  isEmpty (sortFilter st).

Definition renderCourses (st : AppState) : result AppState :=
  let initial := isInitialState st in
  filteredCourses ← getFilteredCourses st;
  let visibleCourses :=
    if initial then take 10 filteredCourses else filteredCourses in
  Ok {| courses := courses st;
        universitySearch := universitySearch st;
        courseAreaSearch := courseAreaSearch st;
        courseSearch := courseSearch st;
        degreeFilter := degreeFilter st;
        sortFilter := sortFilter st;
        courseGrid := visibleCourses;
        resultsCount :=
          numberToString (length filteredCourses) ++ str " course(s) found";
        emptyStateHidden := negb (length filteredCourses =? 0) |}.

Definition resetFilters (st : AppState) : result AppState :=
  renderCourses
    {| courses := courses st;
       universitySearch := [];
       courseAreaSearch := [];
       courseSearch := [];
       degreeFilter := [];
       sortFilter := [];
       courseGrid := courseGrid st;
       resultsCount := resultsCount st;
       emptyStateHidden := emptyStateHidden st |}.

End Composer.

(** ** Arrays on the heap

    An array is an object: [sort] reorders its receiver in place, while
    [filter] builds a new array.  The heap maps the address of an array to
    its contents; the variable [courses] holds an address. *)
Abbreviation heap := (gmap nat (list course)).

Definition newArray (contents : list course) (h : heap) : nat * heap :=
  let address := fresh (dom h) in
  (address, <[address := contents]> h).




(** ** Definitions used by the statements and proofs below *)

(** A table of [rows] rows, each of [cols] cells. *)
Definition table (rows cols : nat) (m : matrix) : Prop :=
  length m = rows /\ Forall (fun row => length row = cols) m.

Section TableLoops.
Variables source comparison : jsstring.

(** What the finished cell [[i][j]] holds: the distance between the first
    [i] characters of [source] and the first [j] of [comparison]. *)
Definition cell (i j : nat) : nat := lev (take i source) (take j comparison).

(** The three loops of [getEditDistance], one by one. *)
Definition firstColumn (m : matrix) : matrix :=
  for_range 0 (length source) (fun i m => mset m i 0 i) m.

Definition firstRow (m : matrix) : matrix :=
  for_range 0 (length comparison) (fun j m => mset m 0 j j) m.

Definition fillRow (i : nat) (m : matrix) : matrix :=
  for_range 1 (length comparison) (fun j m =>
    let cost :=
      if bool_decide (source !! (i - 1) = comparison !! (j - 1))
      then 0 else 1 in
    mset m i j
      (Nat.min (Nat.min (mget m (i - 1) j + 1) (mget m i (j - 1) + 1))
               (mget m (i - 1) (j - 1) + cost))) m.

Definition fillTable (m : matrix) : matrix :=
  for_range 1 (length source) fillRow m.

(** The cells that are final when the pass for [[i][j]] begins: the rows
    above [i], the first column, and row [i] left of [j]. *)
Definition filled (i j : nat) (m : matrix) : Prop :=
  table (length source + 1) (length comparison + 1) m
  /\ forall i' j', i' <= length source -> j' <= length comparison ->
       i' < i \/ j' = 0 \/ (i' = i /\ j' < j) ->
       mget m i' j' = cell i' j'.

End TableLoops.

(** [sub] occurs in [s]. *)
Definition substring (sub s : jsstring) : Prop :=
  exists l r, s = l ++ sub ++ r.

Definition noSpace (w : jsstring) : Prop :=
  Forall (fun c => isWhiteSpace c = false) w.

(** A string that is empty or begins with white space, and one that ends
    with white space. *)
Definition spaceAhead (r : jsstring) : Prop :=
  r = [] \/ exists c r', r = c :: r' /\ isWhiteSpace c = true.

Definition spaceBehind (l : jsstring) : Prop :=
  exists l' c, l = l' ++ [c] /\ isWhiteSpace c = true.

(** [w] is a whitespace-delimited word of [s]: a non-empty run of
    characters other than white space, bounded on either side by white
    space or by an end of [s]. *)
Definition word_of (w s : jsstring) : Prop :=
  w <> [] /\ noSpace w /\
  exists l r, s = l ++ w ++ r /\ (l = [] \/ spaceBehind l) /\ spaceAhead r.

(** The field of the example: the text, and how a CSV file writes it. *)
Definition literalExample : jsstring :=
  str "Bio, Tech " ++ [quoteChar] ++ str "Plus" ++ [quoteChar].

Definition quotedExample : jsstring :=
  [quoteChar] ++ str "Bio, Tech " ++ [quoteChar; quoteChar] ++ str "Plus"
  ++ [quoteChar; quoteChar; quoteChar].

(** How a CSV file writes a field in quotes: every quote of the text is
    doubled, and the whole is put between quotes. *)
Definition escapeQuotes (field : jsstring) : jsstring :=
  flat_map (fun c => if isQuote c then [quoteChar; quoteChar] else [c]) field.

Definition quoteField (field : jsstring) : jsstring :=
  [quoteChar] ++ escapeQuotes field ++ [quoteChar].

(** The text has a character that is not a quote. *)
Definition hasPlainChar (field : jsstring) : Prop :=
  exists c, c ∈ field /\ c <> quoteChar.

(** The position of the column called [name]: when the header row repeats
    a name, the last column of that name is the one a record reads. *)
Fixpoint lastIndexOf (headers : list jsstring) (name : jsstring) : option nat :=
  match headers with
  | [] => None
  | header :: rest =>
      match lastIndexOf rest name with
      | Some i => Some (S i)
      | None => if decide (header = name) then Some 0 else None
      end
  end.

(** The value of column [name] among the parsed [values] of a line: empty
    when the line is too short, [undefined] when there is no such column. *)
Definition fieldOf (headers values : list jsstring) (name : jsstring) : jsval :=
  match lastIndexOf headers name with
  | Some i => JsString (default [] (values !! i))
  | None => JsUndefined
  end.

(** The header row and the data lines of a dataset. *)
Definition headersOf (csvText : jsstring) : list jsstring :=
  parseCSVLine (hd [] (splitLines (trim csvText))).



(** A small dataset with the header row of the interface. *)
Definition sampleCsv : jsstring := str
"Course Name,University,University Type,Degree Type,Duration,Language,Course Code,Course Area,Website
Physics,Sapienza,Public,Bachelor,3,English,P1,Science,http://a
Medicine,Bologna,Public,Master,6,Italian,M1,Health,http://b
Design,Milano,Private,Bachelor,3,English,D1,Arts,http://c
".

(** A record all of whose columns were in the header row. *)
Definition isString (v : jsval) : Prop := exists s, v = JsString s.

Definition wfCourse (c : course) : Prop :=
  isString (courseName c) /\ isString (universityName c)
  /\ isString (universityType c) /\ isString (degreeType c)
  /\ isString (language c) /\ isString (courseCode c)
  /\ isString (courseArea c) /\ isString (website c).

(** The order in which [localeCompare] puts two records by a field. *)
Definition orderBy (localeCompare : jsstring -> jsstring -> Z)
    (field : course -> jsval) (a b : course) : Prop :=
  (localeCompare (toStringVal (field a)) (toStringVal (field b)) <= 0)%Z.

(** A comparator to run the examples with: the lexicographic order of the
    code units. *)
Fixpoint codeUnitCompare (a b : jsstring) : Z :=
  match a, b with
  | [], [] => 0
  | [], _ :: _ => -1
  | _ :: _, [] => 1
  | c :: a', d :: b' =>
      if (code c <? code d)%N then -1
      else if (code d <? code c)%N then 1
      else codeUnitCompare a' b'
  end.

Definition sampleState : AppState :=
  {| courses := parseCSV sampleCsv;
     universitySearch := [];
     courseAreaSearch := [];
     courseSearch := [];
     degreeFilter := [];
     sortFilter := [];
     courseGrid := [];
     resultsCount := [];
     emptyStateHidden := false |}.

Definition withDegree (degree : jsstring) (st : AppState) : AppState :=
  {| courses := courses st;
     universitySearch := universitySearch st;
     courseAreaSearch := courseAreaSearch st;
     courseSearch := courseSearch st;
     degreeFilter := degree;
     sortFilter := sortFilter st;
     courseGrid := courseGrid st;
     resultsCount := resultsCount st;
     emptyStateHidden := emptyStateHidden st |}.

Definition withSort (key : jsstring) (st : AppState) : AppState :=
  {| courses := courses st;
     universitySearch := universitySearch st;
     courseAreaSearch := courseAreaSearch st;
     courseSearch := courseSearch st;
     degreeFilter := degreeFilter st;
     sortFilter := key;
     courseGrid := courseGrid st;
     resultsCount := resultsCount st;
     emptyStateHidden := emptyStateHidden st |}.

#[global] Instance jsval_eq_dec : EqDecision jsval.
Proof. solve_decision. Defined.

(** A comparator that orders the strings consistently. *)
Definition consistentComparator (compare : jsstring -> jsstring -> Z) : Prop :=
  (forall a b, compare a b <= 0 \/ compare b a <= 0)%Z
  /\ (forall a b c, compare a b <= 0 -> compare b c <= 0 -> compare a c <= 0)%Z.

(** The sample records four times over: twelve records. *)
Definition crowdedState : AppState :=
  {| courses := parseCSV sampleCsv ++ parseCSV sampleCsv
                ++ parseCSV sampleCsv ++ parseCSV sampleCsv;
     universitySearch := str "  ";
     courseAreaSearch := [];
     courseSearch := [];
     degreeFilter := [];
     sortFilter := [];
     courseGrid := [];
     resultsCount := [];
     emptyStateHidden := false |}.

(** [array.join(separator)] *)
Fixpoint joinWith (separator : jsstring) (pieces : list jsstring) : jsstring :=
  match pieces with
  | [] => []
  | piece :: rest =>
      match rest with
      | [] => piece
      | _ :: _ => piece ++ separator ++ joinWith separator rest
      end
  end.

(** How a CSV file writes a line: a field with a comma or a quote in it is
    written in quotes, any other field as it is, with commas in between. *)
Definition needsQuotes (field : jsstring) : bool :=
  existsb (fun c => isQuote c || isComma c) field.

Definition csvField (field : jsstring) : jsstring :=
  if needsQuotes field then quoteField field else field.

Definition writeCSVLine (fields : list jsstring) : jsstring :=
  joinWith [commaChar] (map csvField fields).

(** The number of line feeds of a text. *)
Definition countLF (s : jsstring) : nat := length (List.filter isLF s).

(** The nine column names of the interface. *)
Definition columnNames : list jsstring :=
  [str "Course Name"; str "University"; str "University Type";
   str "Degree Type"; str "Duration"; str "Language"; str "Course Code";
   str "Course Area"; str "Website"].

(** The next character, if there is one, is not a quote. *)
Definition nextNotQuote (rest : jsstring) : Prop :=
  match rest with [] => True | c :: _ => c <> quoteChar end.

(** A record lacks a field that the controls of [st] search in: its
    university while the university search is set, its course area while
    the course area search is set, or its course name while the course
    search is set. *)
Definition searchedFieldMissing (st : AppState) (c : course) : Prop :=
  (trim (universitySearch st) <> [] /\ universityName c = JsUndefined)
  \/ (trim (courseAreaSearch st) <> [] /\ courseArea c = JsUndefined)
  \/ (trim (courseSearch st) <> [] /\ courseName c = JsUndefined).

Definition withSearches (university area name : jsstring) (st : AppState)
  : AppState :=
  {| courses := courses st;
     universitySearch := university;
     courseAreaSearch := area;
     courseSearch := name;
     degreeFilter := degreeFilter st;
     sortFilter := sortFilter st;
     courseGrid := courseGrid st;
     resultsCount := resultsCount st;
     emptyStateHidden := emptyStateHidden st |}.

Definition withCourses (records : list course) (st : AppState) : AppState :=
  {| courses := records;
     universitySearch := universitySearch st;
     courseAreaSearch := courseAreaSearch st;
     courseSearch := courseSearch st;
     degreeFilter := degreeFilter st;
     sortFilter := sortFilter st;
     courseGrid := courseGrid st;
     resultsCount := resultsCount st;
     emptyStateHidden := emptyStateHidden st |}.

(** A dataset whose header row has no Course Name. *)
Definition namelessCsv : jsstring := str
"University,Degree Type
Sapienza,Bachelor
Bologna,Master".

(** ** The datalists and the loading of the dataset *)

(** [new Set(values)] as [Array.from] lists it: the values in the order in
    which they first occur. *)
Definition setAdd (set : list jsval) (v : jsval) : list jsval :=
  if decide (v ∈ set) then set else set ++ [v].

Definition newSet (values : list jsval) : list jsval := foldl setAdd [] values.

(** [array.sort()] with no comparator: the strings in the order of their
    code units, the [undefined] values after them.  The order is total, so
    the sorted array is the same in every engine; the model inserts one
    string after the other. *)
Fixpoint insertString (x : jsstring) (sorted : list jsstring) : list jsstring :=
  match sorted with
  | [] => [x]
  | y :: rest =>
      if (codeUnitCompare x y <=? 0)%Z then x :: y :: rest
      else y :: insertString x rest
  end.

Definition sortStrings (l : list jsstring) : list jsstring :=
  foldr insertString [] l.

Definition stringOf (v : jsval) : option jsstring :=
  match v with
  | JsString s => Some s
  | JsUndefined => None
  end.

Definition isUndefined (v : jsval) : bool :=
  match v with
  | JsUndefined => true
  | JsString _ => false
  end.

Definition defaultSort (l : list jsval) : list jsval :=
  map JsString (sortStrings (omap stringOf l)) ++ List.filter isUndefined l.

(** [Boolean(v)]: [undefined] and the empty string are falsy. *)
Definition truthy (v : jsval) : bool :=
  match v with
  | JsString (_ :: _) => true
  | _ => false
  end.

(** [`<option value="${name}"></option>`] *)
Definition optionMarkup (name : jsval) : jsstring :=
  str "<option value=" ++ [quoteChar] ++ toStringVal name ++ [quoteChar]
  ++ str "></option>".

(** The array [universities] of [populateUniversityOptions]. *)
Definition universities (data : list course) : list jsval :=
  defaultSort (newSet (map universityName data)).

(** What [populateUniversityOptions] writes to [universityOptions.innerHTML]. *)
Definition populateUniversityOptions (data : list course) : jsstring :=
  joinWith [] (map optionMarkup (universities data)).

(** The array [courseAreas] of [populateCourseAreaOptions]. *)
Definition courseAreas (data : list course) : list jsval :=
  defaultSort (List.filter truthy (newSet (map courseArea data))).

Definition populateCourseAreaOptions (data : list course) : jsstring :=
  joinWith [] (map optionMarkup (courseAreas data)).

(** The page: the state that the composer works on and the two datalists. *)
Record Page : Type := mkPage {
  appState : AppState;
  universityOptions : jsstring;
  courseAreaOptions : jsstring
}.

Definition withResultsCount (text : jsstring) (st : AppState) : AppState :=
  {| courses := courses st;
     universitySearch := universitySearch st;
     courseAreaSearch := courseAreaSearch st;
     courseSearch := courseSearch st;
     degreeFilter := degreeFilter st;
     sortFilter := sortFilter st;
     courseGrid := courseGrid st;
     resultsCount := text;
     emptyStateHidden := emptyStateHidden st |}.

(** The [catch] block of [loadCourses]. *)
Definition unableToLoad (page : Page) : Page :=
  {| appState := withResultsCount (str "Unable to load courses.") (appState page);
     universityOptions := universityOptions page;
     courseAreaOptions := courseAreaOptions page |}.

(** [loadCourses], from the outcome of the two awaits ([fetched] is the text
    of the response, or the exception of a failed fetch) and the page as it
    is when the function resumes. *)
Definition loadCourses (localeCompare : jsstring -> jsstring -> Z)
    (fetched : result jsstring) (page : Page) : Page :=
  match fetched with
  | Throw _ => unableToLoad page
  | Ok csvText =>
      let records := parseCSV csvText in
      let loaded :=
        {| appState := withCourses records (appState page);
           universityOptions := populateUniversityOptions records;
           courseAreaOptions := populateCourseAreaOptions records |} in
      match renderCourses localeCompare (appState loaded) with
      | Ok st =>
          {| appState := st;
             universityOptions := universityOptions loaded;
             courseAreaOptions := courseAreaOptions loaded |}
      | Throw _ => unableToLoad loaded
      end
  end.

(** The page before the dataset arrives. *)
Definition blankPage : Page :=
  {| appState := withCourses [] sampleState;
     universityOptions := [];
     courseAreaOptions := [] |}.

(** The order of the code units, as [sort] with no comparator uses it. *)
Definition codeUnitOrder (a b : jsstring) : Prop := (codeUnitCompare a b <= 0)%Z.

(** ** Collation *)

(** A comparator that orders words of unaccented letters the way the
    collation of a browser does: alphabetically without regard to case and,
    where two words differ in case only, the lower-case letter first. *)
Definition collationCompare (a b : jsstring) : Z :=
  let primary := codeUnitCompare (toLowerCase a) (toLowerCase b) in
  if (primary =? 0)%Z then codeUnitCompare b a else primary.

(** A dataset in which one university name starts with a capital and the
    others do not. *)
Definition mixedCaseCsv : jsstring := str
"Course Name,University,University Type,Degree Type,Duration,Language,Course Code,Course Area,Website
Physics,cherry,Public,Bachelor,3,English,P1,Science,http://a
Medicine,Banana,Public,Master,6,Italian,M1,Health,http://b
Design,apple,Private,Bachelor,3,English,D1,Arts,http://c
".

(** The page with that dataset, the sort key "university" chosen and every
    other control empty. *)
Definition mixedCaseState : AppState :=
  {| courses := parseCSV mixedCaseCsv;
     universitySearch := [];
     courseAreaSearch := [];
     courseSearch := [];
     degreeFilter := [];
     sortFilter := str "university";
     courseGrid := [];
     resultsCount := [];
     emptyStateHidden := false |}.

(** A sequence of records in non-decreasing lexicographic order of
    [universityName], the strings compared code unit by code unit. *)
Definition lexicographicByUniversity (l : list course) : Prop :=
  StronglySorted (orderBy codeUnitCompare universityName) l.

(** * Verification *)

(** ** The recursive distance is the least number of single edits *)

Section LevenshteinFacts.
Context {A : Type} `{EqDecision A}.
Implicit Types (s t u l r : list A) (a b c d : A).

Lemma lev_nil_l t : lev [] t = length t.
Proof. reflexivity. Qed.

Lemma lev_nil_r s : lev s [] = length s.
Proof. destruct s; reflexivity. Qed.

Lemma lev_cons a s b t :
  lev (a :: s) (b :: t)
  = min3 (lev s (b :: t) + 1) (lev (a :: s) t + 1) (lev s t + cost a b).
Proof. reflexivity. Qed.

Lemma cost_sym a b : cost a b = cost b a.
Proof. unfold cost. repeat case_decide; congruence. Qed.

Lemma cost_le_1 a b : cost a b <= 1.
Proof. unfold cost. case_decide; lia. Qed.

Lemma cost_refl a : cost a a = 0.
Proof. unfold cost. case_decide; congruence. Qed.

Lemma lev_sym s t : lev s t = lev t s.
Proof.
  revert t. induction s as [|a s IHs]; intros t.
  - now rewrite lev_nil_l, lev_nil_r.
  - induction t as [|b t IHt].
    + now rewrite lev_nil_l, lev_nil_r.
    + rewrite !lev_cons, IHt, !IHs, (cost_sym a b). unfold min3. lia.
Qed.

Lemma lev_refl s : lev s s = 0.
Proof.
  induction s as [|a s IH]; [reflexivity|].
  rewrite lev_cons, IH, cost_refl. unfold min3. lia.
Qed.

(** Dropping the head of the source costs at most one edit. *)
Lemma lev_delete_head c r t : lev (c :: r) t <= S (lev r t).
Proof.
  destruct t as [|b t].
  - rewrite !lev_nil_r. simpl. lia.
  - rewrite lev_cons. unfold min3. lia.
Qed.

Lemma lev_insert_head c r t : lev r t <= S (lev (c :: r) t).
Proof.
  revert r. induction t as [|b t IH]; intros r.
  - rewrite !lev_nil_r. simpl. lia.
  - rewrite lev_cons.
    pose proof (IH r) as H1.
    pose proof (lev_delete_head b t r) as H2.
    rewrite (lev_sym (b :: t) r), (lev_sym t r) in H2.
    pose proof (cost_le_1 c b).
    unfold min3. lia.
Qed.

Lemma lev_subst_head c d r t : lev (c :: r) t <= S (lev (d :: r) t).
Proof.
  induction t as [|b t IH].
  - rewrite !lev_nil_r. simpl. lia.
  - rewrite !lev_cons.
    pose proof (cost_le_1 c b). unfold min3. lia.
Qed.

(** An edit below a common first character moves the distance to any
    target by at most one, if it does so without that character. *)
Lemma lev_under_head a s u :
  (forall t, lev s t <= S (lev u t)) ->
  forall t, lev (a :: s) t <= S (lev (a :: u) t).
Proof.
  intros Hsu t. induction t as [|b t IH].
  - rewrite !lev_nil_r. specialize (Hsu []). rewrite !lev_nil_r in Hsu.
    simpl. lia.
  - rewrite !lev_cons.
    pose proof (Hsu (b :: t)). pose proof (Hsu t).
    unfold min3. lia.
Qed.

Lemma lev_edit1 s u t : edit1 s u -> lev s t <= S (lev u t).
Proof.
  intros He. revert t.
  destruct He as [l c r|l c r|l c d r];
    (induction l as [|a l IH]; simpl;
     [intros t|apply lev_under_head, IH]).
  - apply lev_insert_head.
  - apply lev_delete_head.
  - apply lev_subst_head.
Qed.

Lemma lev_lower_bound n s t : edits n s t -> lev s t <= n.
Proof.
  induction 1 as [s|n s u t He _ IH].
  - rewrite lev_refl. lia.
  - pose proof (lev_edit1 s u t He). lia.
Qed.

Lemma edit1_cons a s t : edit1 s t -> edit1 (a :: s) (a :: t).
Proof.
  intros [l c r|l c r|l c d r].
  - apply (edit_insert (a :: l)).
  - apply (edit_delete (a :: l)).
  - apply (edit_subst (a :: l)).
Qed.

Lemma edits_cons a n s t : edits n s t -> edits n (a :: s) (a :: t).
Proof.
  induction 1; [constructor|]. econstructor; [apply edit1_cons|]; eauto.
Qed.

Lemma edits_insert_all t : edits (length t) [] t.
Proof.
  induction t as [|b t IH]; [constructor|]. simpl.
  apply edits_step with (u := [b]).
  - apply (edit_insert [] b []).
  - apply (edits_cons b) in IH. exact IH.
Qed.

Lemma edits_delete_all s : edits (length s) s [].
Proof.
  induction s as [|a s IH]; [constructor|]. simpl.
  apply edits_step with (u := s); [apply (edit_delete [] a s)|exact IH].
Qed.

Lemma lev_reached s t : edits (lev s t) s t.
Proof.
  revert t. induction s as [|a s IHs]; intros t.
  - rewrite lev_nil_l. apply edits_insert_all.
  - induction t as [|b t IHt].
    + rewrite lev_nil_r. apply edits_delete_all.
    + rewrite lev_cons. unfold min3.
      destruct (Nat.min_spec (Nat.min (lev s (b :: t) + 1) (lev (a :: s) t + 1))
                  (lev s t + cost a b)) as [[_ ->]|[_ ->]].
      * destruct (Nat.min_spec (lev s (b :: t) + 1) (lev (a :: s) t + 1))
          as [[_ ->]|[_ ->]]; rewrite Nat.add_1_r.
        -- apply edits_step with (u := s); [apply (edit_delete [] a s)|apply IHs].
        -- apply edits_step with (u := b :: a :: s).
           ++ apply (edit_insert [] b (a :: s)).
           ++ apply edits_cons, IHt.
      * unfold cost. case_decide as Hab.
        -- subst b. rewrite Nat.add_0_r. apply edits_cons, IHs.
        -- rewrite Nat.add_1_r. apply edits_step with (u := b :: s).
           ++ apply (edit_subst [] a b s).
           ++ apply edits_cons, IHs.
Qed.

Theorem lev_min_edits s t : min_edits s t (lev s t).
Proof. split; [apply lev_reached|intros n; apply lev_lower_bound]. Qed.

Lemma min_edits_unique s t (n m : nat) :
  min_edits s t n -> min_edits s t m -> n = m.
Proof. intros [H1 H2] [H3 H4]. apply H2 in H3. apply H4 in H1. lia. Qed.

(** Reading both strings backwards changes no distance. *)
Lemma edit1_rev s t : edit1 s t -> edit1 (rev s) (rev t).
Proof.
  intros [l c r|l c r|l c d r];
    rewrite ?rev_app_distr; simpl; rewrite ?rev_app_distr, <- ?app_assoc; simpl.
  - apply edit_insert.
  - apply edit_delete.
  - apply edit_subst.
Qed.

Lemma edits_rev n s t : edits n s t -> edits n (rev s) (rev t).
Proof.
  induction 1; [constructor|]. econstructor; [apply edit1_rev|]; eauto.
Qed.

Lemma lev_rev s t : lev (rev s) (rev t) = lev s t.
Proof.
  apply Nat.le_antisymm.
  - apply lev_lower_bound, edits_rev, lev_reached.
  - rewrite <- (rev_involutive s), <- (rev_involutive t) at 1.
    apply lev_lower_bound, edits_rev, lev_reached.
Qed.

(** The recurrence on last characters, which the table follows. *)
Lemma lev_snoc s a t b :
  lev (s ++ [a]) (t ++ [b])
  = min3 (lev s (t ++ [b]) + 1) (lev (s ++ [a]) t + 1) (lev s t + cost a b).
Proof.
  rewrite <- (lev_rev (s ++ [a]) (t ++ [b])), !rev_app_distr. cbn [rev app].
  rewrite lev_cons.
  rewrite <- (lev_rev s (t ++ [b])), <- (lev_rev (s ++ [a]) t), <- (lev_rev s t).
  rewrite !rev_app_distr. reflexivity.
Qed.

End LevenshteinFacts.

(** ** The table of [getEditDistance] holds the recursive distance *)

Lemma foldl_seq_ind {St : Type} (P : nat -> St -> Prop) (body : nat -> St -> St) n :
  forall lo s,
    P lo s ->
    (forall i s, lo <= i < lo + n -> P i s -> P (i + 1) (body i s)) ->
    P (lo + n) (foldl (fun s i => body i s) s (seq lo n)).
Proof.
  induction n as [|n IH]; intros lo s H0 Hstep; simpl.
  - now rewrite Nat.add_0_r.
  - replace (lo + S n) with (S lo + n) by lia.
    apply IH.
    + replace (S lo) with (lo + 1) by lia. apply Hstep; [lia|exact H0].
    + intros i s' Hi. apply Hstep. lia.
Qed.

(** The rule of the [for] loop: an invariant that holds on entry and is
    kept by every pass holds on exit, with the counter one past [hi]. *)
Lemma for_range_ind {St : Type} (P : nat -> St -> Prop) lo hi body (s : St) :
  lo <= hi + 1 ->
  P lo s ->
  (forall i s, lo <= i <= hi -> P i s -> P (i + 1) (body i s)) ->
  P (hi + 1) (for_range lo hi body s).
Proof.
  intros Hle H0 Hstep. unfold for_range.
  replace (hi + 1) with (lo + (hi + 1 - lo)) at 1 by lia.
  apply foldl_seq_ind; [exact H0|].
  intros i s' Hi. apply Hstep. lia.
Qed.

Lemma table_replicate rows cols : table rows cols (replicate rows (replicate cols 0)).
Proof.
  split; [apply length_replicate|].
  apply Forall_replicate, length_replicate.
Qed.

Lemma table_mset rows cols m i j v : table rows cols m -> table rows cols (mset m i j v).
Proof.
  intros [Hlen Hrows]. split.
  - unfold mset. now rewrite length_alter.
  - unfold mset. apply Forall_alter; [exact Hrows|].
    intros row _ Hrow. now rewrite length_insert.
Qed.

Lemma mget_mset rows cols m i j v i' j' :
  table rows cols m -> i < rows -> j < cols ->
  mget (mset m i j v) i' j'
  = if decide (i' = i /\ j' = j) then v else mget m i' j'.
Proof.
  intros [Hlen Hrows] Hi Hj. unfold mget, mset.
  destruct (decide (i' = i)) as [->|Hne].
  - rewrite list_lookup_alter_eq.
    destruct (lookup_lt_is_Some_2 m i) as [row Hrow]; [lia|].
    rewrite Hrow. cbn [fmap option_fmap option_map mbind option_bind].
    assert (length row = cols) as Hlr.
    { rewrite Forall_forall in Hrows. apply Hrows.
      eapply list_elem_of_lookup_2, Hrow. }
    destruct (decide (j' = j)) as [->|Hnj].
    + rewrite list_lookup_insert_eq by lia.
      case_decide as Hd; [reflexivity|]. exfalso. apply Hd. split; reflexivity.
    + rewrite list_lookup_insert_ne by congruence.
      case_decide as Hd; [destruct Hd; congruence|reflexivity].
  - rewrite list_lookup_alter_ne by congruence.
    case_decide as Hd; [destruct Hd; congruence|reflexivity].
Qed.

Section Table.
Variables source comparison : jsstring.

Local Abbreviation cell := (cell source comparison).
Local Abbreviation firstColumn := (firstColumn source).
Local Abbreviation firstRow := (firstRow comparison).
Local Abbreviation fillRow := (fillRow source comparison).
Local Abbreviation fillTable := (fillTable source comparison).
Local Abbreviation filled := (filled source comparison).

Local Abbreviation rows := (length source + 1).
Local Abbreviation cols := (length comparison + 1).

Lemma cell_0_r i : i <= length source -> cell i 0 = i.
Proof. intros Hi. unfold cell. rewrite take_0, lev_nil_r, length_take. lia. Qed.

Lemma cell_0_l j : j <= length comparison -> cell 0 j = j.
Proof. intros Hj. unfold cell. rewrite take_0, lev_nil_l, length_take. lia. Qed.

Lemma cell_step i j :
  1 <= i <= length source -> 1 <= j <= length comparison ->
  cell i j
  = Nat.min (Nat.min (cell (i - 1) j + 1) (cell i (j - 1) + 1))
      (cell (i - 1) (j - 1)
       + (if bool_decide (source !! (i - 1) = comparison !! (j - 1))
          then 0 else 1)).
Proof.
  intros Hi Hj. unfold cell.
  destruct (lookup_lt_is_Some_2 source (i - 1)) as [a Ha]; [lia|].
  destruct (lookup_lt_is_Some_2 comparison (j - 1)) as [b Hb]; [lia|].
  replace i with (S (i - 1)) at 1 3 by lia.
  replace j with (S (j - 1)) at 1 2 by lia.
  rewrite (take_S_r _ _ _ Ha), (take_S_r _ _ _ Hb), lev_snoc.
  rewrite Ha, Hb. unfold min3, cost.
  case_bool_decide as Hd; case_decide as Hd'; try reflexivity; congruence.
Qed.

Lemma firstColumn_spec m :
  table rows cols m ->
  table rows cols (firstColumn m)
  /\ forall i, i <= length source -> mget (firstColumn m) i 0 = i.
Proof.
  intros Hm.
  enough (table rows cols (firstColumn m)
          /\ forall i, i < length source + 1 -> mget (firstColumn m) i 0 = i)
    as [H1 H2] by (split; [exact H1|intros i Hi; apply H2; lia]).
  unfold firstColumn.
  apply (for_range_ind (fun k m =>
           table rows cols m /\ forall i, i < k -> mget m i 0 = i)).
  - lia.
  - split; [exact Hm|]. intros i Hi. lia.
  - intros k m' Hk [Ht Hc]. split; [now apply table_mset|].
    intros i Hi. rewrite (mget_mset rows cols) by (try assumption; lia).
    case_decide as Hd; [destruct Hd; congruence|]. apply Hc.
    assert (i <> k) by (intros ->; apply Hd; split; reflexivity). lia.
Qed.

Lemma firstRow_spec m :
  table rows cols m ->
  (forall i, i <= length source -> mget m i 0 = i) ->
  table rows cols (firstRow m)
  /\ (forall i, i <= length source -> mget (firstRow m) i 0 = i)
  /\ (forall j, j <= length comparison -> mget (firstRow m) 0 j = j).
Proof.
  intros Hm Hcol.
  enough (table rows cols (firstRow m)
          /\ (forall i, i <= length source -> mget (firstRow m) i 0 = i)
          /\ forall j, j < length comparison + 1 -> mget (firstRow m) 0 j = j)
    as (H1 & H2 & H3)
      by (split; [exact H1|]; split; [exact H2|]; intros j Hj; apply H3; lia).
  unfold firstRow.
  apply (for_range_ind (fun k m =>
           table rows cols m
           /\ (forall i, i <= length source -> mget m i 0 = i)
           /\ forall j, j < k -> mget m 0 j = j)).
  - lia.
  - split; [exact Hm|]. split; [exact Hcol|]. intros j Hj. lia.
  - intros k m' Hk (Ht & Hc & Hr). split; [now apply table_mset|]. split.
    + intros i Hi. rewrite (mget_mset rows cols) by (try assumption; lia).
      case_decide as Hd; [destruct Hd; congruence|]. now apply Hc.
    + intros j Hj. rewrite (mget_mset rows cols) by (try assumption; lia).
      case_decide as Hd; [destruct Hd; congruence|]. apply Hr.
      assert (j <> k) by (intros ->; apply Hd; split; reflexivity). lia.
Qed.

Lemma fillRow_spec i m :
  1 <= i <= length source -> filled i 1 m -> filled (i + 1) 1 (fillRow i m).
Proof.
  intros Hi Hm.
  enough (filled i (length comparison + 1) (fillRow i m)) as [Ht Hc].
  { split; [exact Ht|]. intros i' j' Hi' Hj' Hdone. apply Hc; auto. lia. }
  unfold fillRow. apply (for_range_ind (filled i)); [lia|exact Hm|].
  intros j m' Hj [Ht Hc]. split; [now apply table_mset|].
  intros i' j' Hi' Hj' Hdone.
  rewrite (mget_mset rows cols) by (try assumption; lia).
  case_decide as Hd.
  - destruct Hd as [-> ->].
    rewrite !Hc by lia. symmetry. now apply cell_step.
  - apply Hc; auto.
    destruct Hdone as [?|[?|[-> ?]]]; auto.
    right. right. split; [reflexivity|].
    assert (j' <> j) by (intros ->; apply Hd; split; reflexivity). lia.
Qed.

Lemma fillTable_spec m :
  filled 1 1 m -> filled (length source + 1) 1 (fillTable m).
Proof.
  intros Hm. unfold fillTable.
  apply (for_range_ind (fun i m => filled i 1 m)); [lia|exact Hm|].
  intros i m' Hi Hf. now apply fillRow_spec.
Qed.

Lemma table_result :
  mget (fillTable (firstRow (firstColumn
          (replicate rows (replicate cols 0)))))
       (length source) (length comparison)
  = lev source comparison.
Proof.
  destruct (firstColumn_spec _ (table_replicate rows cols)) as [Ht1 Hc1].
  destruct (firstRow_spec _ Ht1 Hc1) as (Ht2 & Hc2 & Hr2).
  destruct (fillTable_spec (firstRow (firstColumn
              (replicate rows (replicate cols 0))))) as [_ Hfin].
  { split; [exact Ht2|]. intros i' j' Hi' Hj' [Hlt|[->|[-> Hlt]]].
    - assert (i' = 0) as -> by lia. rewrite Hr2 by lia. now rewrite cell_0_l.
    - rewrite Hc2 by lia. now rewrite cell_0_r.
    - assert (j' = 0) as -> by lia. rewrite Hc2 by lia. now rewrite cell_0_r. }
  rewrite Hfin by lia. unfold cell. now rewrite !firstn_all.
Qed.

End Table.

Theorem getEditDistance_lev value target :
  getEditDistance value target = lev (normalizeText value) (normalizeText target).
Proof.
  unfold getEditDistance.
  destruct (normalizeText value) as [|a s] eqn:Hs.
  - cbn [isEmpty orb]. rewrite lev_nil_l. simpl. lia.
  - destruct (normalizeText target) as [|b t] eqn:Ht.
    + cbn [isEmpty orb]. rewrite lev_nil_r. simpl. lia.
    + cbn [isEmpty orb]. apply (table_result (a :: s) (b :: t)).
Qed.

(** ** Characters, [trim] and [normalizeText] *)

Ltac each_char c :=
  destruct c as [[] [] [] [] [] [] [] []]; vm_compute;
  try reflexivity; try discriminate; try tauto.

Lemma isKept_toLowerChar c : isKept c = true -> toLowerChar c = c.
Proof. each_char c. Qed.

Lemma noSpace_cons_space c w : isWhiteSpace c = true -> ~ noSpace (c :: w).
Proof. intros Hc Hw. inversion Hw; congruence. Qed.

Lemma dropWhile_idem {A} (p : A -> bool) s :
  dropWhile p (dropWhile p s) = dropWhile p s.
Proof.
  induction s as [|c r IH]; [reflexivity|]. simpl.
  destruct (p c) eqn:Hc; [exact IH|]. simpl. now rewrite Hc.
Qed.

Lemma dropWhile_head {A} (p : A -> bool) s c r :
  dropWhile p s = c :: r -> p c = false.
Proof.
  induction s as [|d s IH]; [discriminate|]. simpl.
  destruct (p d) eqn:Hd; [exact IH|]. now intros [= <- _].
Qed.

Lemma dropWhile_Forall {A} (P : A -> Prop) (p : A -> bool) s :
  Forall P s -> Forall P (dropWhile p s).
Proof.
  induction 1 as [|c r Hc Hr IH]; simpl; [constructor|].
  destruct (p c); [exact IH|now constructor].
Qed.

Lemma dropWhile_snoc {A} (p : A -> bool) l c :
  dropWhile p (l ++ [c])
  = match dropWhile p l with
    | [] => if p c then [] else [c]
    | _ :: _ => dropWhile p l ++ [c]
    end.
Proof.
  induction l as [|d l IH]; simpl; [reflexivity|].
  destruct (p d); [exact IH|reflexivity].
Qed.

Lemma trimEnd_cons c r :
  trimEnd (c :: r)
  = if isEmpty (trimEnd r) && isWhiteSpace c then [] else c :: trimEnd r.
Proof.
  unfold trimEnd. simpl rev at 1. rewrite dropWhile_snoc.
  destruct (dropWhile isWhiteSpace (rev r)) as [|d l] eqn:Hd.
  - simpl. destruct (isWhiteSpace c); reflexivity.
  - rewrite rev_app_distr. simpl rev at 1. cbn [app].
    destruct (rev (d :: l)) eqn:Hr; [|reflexivity].
    apply (f_equal (@length _)) in Hr. rewrite length_rev in Hr. discriminate.
Qed.

Lemma trimEnd_idem s : trimEnd (trimEnd s) = trimEnd s.
Proof. unfold trimEnd. now rewrite rev_involutive, dropWhile_idem. Qed.

Lemma trimStart_fixed_cons c r :
  isWhiteSpace c = false -> trimStart (c :: r) = c :: r.
Proof. intros Hc. unfold trimStart. simpl. now rewrite Hc. Qed.

Lemma trim_head s c r : trim s = c :: r -> isWhiteSpace c = false.
Proof.
  unfold trim. destruct (trimStart s) as [|d l] eqn:Hs; [discriminate|].
  apply dropWhile_head in Hs. rewrite trimEnd_cons, Hs, andb_false_r.
  now intros [= <- _].
Qed.

Lemma trim_last s l c : trim s = l ++ [c] -> isWhiteSpace c = false.
Proof.
  unfold trim, trimEnd. intros Hs.
  apply (f_equal (@rev _)) in Hs. rewrite rev_involutive, rev_app_distr in Hs.
  simpl in Hs. now apply dropWhile_head in Hs.
Qed.

Lemma trim_idem s : trim (trim s) = trim s.
Proof.
  unfold trim at 1.
  destruct (trim s) as [|c r] eqn:Hs; [reflexivity|].
  rewrite trimStart_fixed_cons by (eapply trim_head, Hs).
  rewrite <- Hs. unfold trim. apply trimEnd_idem.
Qed.

Lemma trim_Forall (P : ascii -> Prop) s : Forall P s -> Forall P (trim s).
Proof.
  intros Hs. unfold trim, trimEnd, trimStart.
  apply Forall_rev, dropWhile_Forall, Forall_rev, dropWhile_Forall, Hs.
Qed.

Lemma trim_noSpace w : noSpace w -> trim w = w.
Proof.
  intros Hw. unfold trim, trimEnd, trimStart.
  assert (forall l : jsstring, noSpace l -> dropWhile isWhiteSpace l = l) as Hd.
  { intros [|c l] Hl; [reflexivity|]. simpl. inversion Hl as [|? ? Hc _]. now rewrite Hc. }
  rewrite (Hd w Hw), Hd by (apply Forall_rev, Hw). apply rev_involutive.
Qed.

Lemma toLowerCase_kept s : Forall (fun c => isKept c = true) s -> toLowerCase s = s.
Proof.
  induction 1 as [|c r Hc _ IH]; [reflexivity|].
  unfold toLowerCase in *. simpl. now rewrite IH, isKept_toLowerChar.
Qed.

Lemma filter_kept s :
  Forall (fun c => isKept c = true) s -> List.filter isKept s = s.
Proof.
  induction 1 as [|c r Hc _ IH]; [reflexivity|]. simpl. now rewrite Hc, IH.
Qed.

Lemma filter_isKept_Forall s :
  Forall (fun c => isKept c = true) (List.filter isKept s).
Proof.
  rewrite Forall_forall. intros c Hc.
  apply list_elem_of_In, filter_In in Hc. tauto.
Qed.

(** A trimmed string of kept characters is its own normal form. *)
Lemma normalizeText_fixed s :
  Forall (fun c => isKept c = true) s -> trim s = s -> normalizeText s = s.
Proof.
  intros Hk Ht. unfold normalizeText. now rewrite toLowerCase_kept, filter_kept.
Qed.

Lemma normalizeText_kept s : Forall (fun c => isKept c = true) (normalizeText s).
Proof. apply trim_Forall, filter_isKept_Forall. Qed.

Lemma normalizeText_trimmed s : trim (normalizeText s) = normalizeText s.
Proof. apply trim_idem. Qed.

Theorem normalizeText_idem s : normalizeText (normalizeText s) = normalizeText s.
Proof. apply normalizeText_fixed; [apply normalizeText_kept|apply normalizeText_trimmed]. Qed.

(** ** [includes] finds exactly the substrings *)

Lemma startsWith_spec s sub : startsWith s sub = true <-> exists r, s = sub ++ r.
Proof.
  revert s. induction sub as [|c sub IH]; intros s.
  - destruct s; simpl; (split; [intros _; eexists; reflexivity|reflexivity]).
  - destruct s as [|d s]; simpl.
    + split; [discriminate|intros [r Hr]; discriminate].
    + rewrite andb_true_iff, bool_decide_eq_true, IH. split.
      * intros [-> [r ->]]. now exists r.
      * intros [r [= -> ->]]. split; [reflexivity|now exists r].
Qed.

Lemma includes_spec s sub : includes s sub = true <-> substring sub s.
Proof.
  unfold substring. induction s as [|c s IH].
  - cbn [includes]. rewrite orb_false_r, startsWith_spec. split.
    + intros [r Hr]. now exists [], r.
    + intros (l & r & Hs). destruct l; [now exists r|discriminate].
  - cbn [includes]. rewrite orb_true_iff, startsWith_spec, IH. split.
    + intros [[r Hr]|(l & r & Hs)].
      * now exists [], r.
      * exists (c :: l), r. simpl. now rewrite Hs.
    + intros (l & r & Hs). destruct l as [|d l].
      * left. now exists r.
      * right. injection Hs as _ Hs. now exists l, r.
Qed.

Lemma includes_nil s : includes s [] = true.
Proof. apply includes_spec. now exists [], s. Qed.

(** ** [split(/\s+/)] yields the whitespace-delimited words *)

Lemma splitLoop_word s : forall current inSeparator w,
  w <> [] -> (inSeparator = true -> current = []) ->
  w ∈ splitLoop s current inSeparator <->
    (exists p r, s = p ++ r /\ noSpace p /\ spaceAhead r /\ w = current ++ p)
    \/ (exists l c r, s = l ++ [c] ++ w ++ r /\ isWhiteSpace c = true
                      /\ noSpace w /\ spaceAhead r).
Proof.
  induction s as [|c rest IH]; intros current inSeparator w Hw Hsep.
  - simpl. rewrite list_elem_of_singleton. split.
    + intros ->. left. exists [], []. rewrite (app_nil_r current).
      split_and!; [reflexivity|constructor|now left|reflexivity].
    + intros [(p & r & Hs & _ & _ & ->)|(l & d & r & Hs & _)].
      * symmetry in Hs. apply app_eq_nil in Hs as [-> _]. now rewrite app_nil_r.
      * destruct l; discriminate.
  - cbn [splitLoop]. destruct (isWhiteSpace c) eqn:Hc.
    + assert (w ∈ splitLoop rest [] true <->
              (exists l d r, c :: rest = l ++ [d] ++ w ++ r
                 /\ isWhiteSpace d = true /\ noSpace w /\ spaceAhead r)) as Hrest.
      { rewrite (IH [] true w Hw (fun _ => eq_refl)). split.
        - intros [(p & r & -> & Hp & Hr & ->)|(l & d & r & -> & Hd & Hn & Hr)].
          + now exists [], c, r.
          + now exists (c :: l), d, r.
        - intros (l & d & r & Hs & Hd & Hn & Hr). destruct l as [|e l].
          + injection Hs as <- ->. left. now exists w, r.
          + injection Hs as <- ->. right. now exists l, d, r. }
      assert ((exists p r, c :: rest = p ++ r /\ noSpace p /\ spaceAhead r
                 /\ w = current ++ p) <-> w = current) as Hfirst.
      { split.
        - intros (p & r & Hs & Hp & _ & ->). destruct p as [|e p].
          + now rewrite app_nil_r.
          + injection Hs as <- _. now apply noSpace_cons_space in Hp.
        - intros ->. exists [], (c :: rest). rewrite app_nil_r.
          split_and!; [reflexivity|constructor| |reflexivity].
          right. now exists c, rest. }
      rewrite Hfirst, <- Hrest. destruct inSeparator.
      * split; [now right|]. intros [->|Hin]; [|exact Hin].
        now rewrite Hsep in Hw.
      * rewrite elem_of_cons. tauto.
    + rewrite (IH (current ++ [c]) false w Hw) by discriminate. split.
      * intros [(p & r & -> & Hp & Hr & ->)|(l & d & r & -> & Hd & Hn & Hr)].
        -- left. exists (c :: p), r. rewrite <- app_assoc.
           split_and!; [reflexivity|now constructor|exact Hr|reflexivity].
        -- right. now exists (c :: l), d, r.
      * intros [(p & r & Hs & Hp & Hr & ->)|(l & d & r & Hs & Hd & Hn & Hr)].
        -- left. destruct p as [|e p].
           ++ destruct Hr as [->|(e & r' & -> & He)]; [discriminate|].
              injection Hs as -> _. congruence.
           ++ injection Hs as <- ->. exists p, r. rewrite <- app_assoc.
              inversion Hp; subst. now split_and!.
        -- right. destruct l as [|e l].
           ++ injection Hs as -> _. congruence.
           ++ injection Hs as <- ->. now exists l, d, r.
Qed.

Theorem splitWhitespace_word s w :
  w <> [] -> w ∈ splitWhitespace s <-> word_of w s.
Proof.
  intros Hw. unfold splitWhitespace, word_of.
  rewrite (splitLoop_word s [] false w Hw) by discriminate. split.
  - intros [(p & r & -> & Hp & Hr & ->)|(l & c & r & -> & Hc & Hn & Hr)].
    + split_and!; [exact Hw|exact Hp|]. exists [], r.
      split_and!; [reflexivity|now left|exact Hr].
    + split_and!; [exact Hw|exact Hn|]. exists (l ++ [c]), r.
      rewrite <- app_assoc. split_and!; [reflexivity| |exact Hr].
      right. now exists l, c.
  - intros (_ & Hn & l & r & -> & [->|(l' & c & -> & Hc)] & Hr).
    + left. now exists w, r.
    + right. exists l', c, r. now rewrite <- app_assoc.
Qed.

Lemma splitLoop_empty s : forall current inSeparator,
  [] ∈ splitLoop s current inSeparator ->
  (inSeparator = false /\ current = [] /\ spaceAhead s)
  \/ (s = [] /\ current = [])
  \/ spaceBehind s.
Proof.
  induction s as [|c rest IH]; intros current inSeparator.
  - simpl. rewrite list_elem_of_singleton. intros <-. right. now left.
  - cbn [splitLoop]. destruct (isWhiteSpace c) eqn:Hc.
    + assert ([] ∈ splitLoop rest [] true -> spaceBehind (c :: rest)) as Hrest.
      { intros Hin. apply IH in Hin as [(? & _)|[[-> _]|(l & d & -> & Hd)]].
        - discriminate.
        - now exists [], c.
        - now exists (c :: l), d. }
      destruct inSeparator.
      * intros Hin. right. right. now apply Hrest.
      * rewrite elem_of_cons. intros [<-|Hin].
        -- left. split_and!; [reflexivity..|]. right. now exists c, rest.
        -- right. right. now apply Hrest.
    + intros Hin. apply IH in Hin as [(_ & Hcur & _)|[[_ Hcur]|(l & d & -> & Hd)]].
      * destruct current; discriminate.
      * destruct current; discriminate.
      * right. right. now exists (c :: l), d.
Qed.

(** The pieces of a trimmed string are its words; the empty string alone
    has an empty piece. *)
Lemma splitWhitespace_trimmed_empty s :
  [] ∈ splitWhitespace (trim s) -> trim s = [].
Proof.
  intros Hin. apply splitLoop_empty in Hin as [(_ & _ & Ha)|[[Hs _]|(l & c & Hs & Hc)]].
  - destruct Ha as [Hs|(c & r & Hs & Hc)]; [exact Hs|].
    apply trim_head in Hs. congruence.
  - exact Hs.
  - apply trim_last in Hs. congruence.
Qed.

Lemma word_of_normalized w s :
  word_of w (normalizeText s) -> normalizeText w = w.
Proof.
  intros (_ & Hn & l & r & Hs & _).
  apply normalizeText_fixed; [|now apply trim_noSpace].
  pose proof (normalizeText_kept s) as Hk. rewrite Hs in Hk.
  apply Forall_app in Hk as [_ Hk]. now apply Forall_app in Hk as [Hk _].
Qed.

(** ** The threshold *)

Section Binary64.
Local Open Scope Z_scope.

(** The product of an integer below 2^32 and the double 0.2, rounded to a
    double and floored, is the integer quotient by 5. *)
Lemma roundBinary64_pointTwo (N : Z) :
  0 <= N < 2 ^ 32 -> Z.shiftr (roundBinary64 (N * pointTwo)) 54 = N / 5.
Proof.
  intros [HN0 Hn].
  rewrite Z.shiftr_div_pow2 by lia.
  pose proof (Z.div_mod N 5 ltac:(lia)) as Hdm.
  pose proof (Z.mod_pos_bound N 5 ltac:(lia)) as Hrr.
  set (k := N / 5) in *. set (rr := N mod 5) in *.
  unfold roundBinary64.
  set (p := N * pointTwo).
  assert (5 * p = N * 2 ^ 54 + N) as H5p by (unfold p, pointTwo; lia).
  destruct (Z.leb_spec (Z.log2 p) 52) as [He|He].
  - (* the product has at most 53 bits and is exact *)
    assert (p < 2 ^ 53) as Hp.
    { destruct (Z.eq_dec p 0) as [->|Hp0]; [lia|].
      apply Z.log2_lt_pow2; unfold p, pointTwo in *; lia. }
    assert (k = 0) as -> by (unfold p, pointTwo in *; lia).
    apply Z.div_small. unfold p, pointTwo in *. lia.
  - (* the [s] low bits are rounded away; [s] is at most 31 *)
    set (s := Z.log2 p - 52) in *.
    assert (0 < p) as Hp0.
    { destruct (Z.le_gt_cases p 0) as [Hle|]; [|lia].
      rewrite (Z.log2_nonpos p Hle) in He. lia. }
    assert (Z.log2 p < 84) as Hlog.
    { apply Z.log2_lt_pow2; [lia|]. unfold p, pointTwo. lia. }
    assert (1 <= s <= 31) as Hs by (unfold s; lia).
    rewrite Z.shiftr_div_pow2, Z.shiftl_mul_pow2 by lia.
    set (S2 := 2 ^ s).
    assert (2 <= S2 <= 2 ^ 31) as HS2.
    { unfold S2. split.
      - change 2 with (2 ^ 1) at 1. apply Z.pow_le_mono_r; lia.
      - apply Z.pow_le_mono_r; lia. }
    assert (2 ^ 54 = S2 * 2 ^ (54 - s)) as Hsplit.
    { unfold S2. rewrite <- Z.pow_add_r by lia. f_equal. lia. }
    set (T := 2 ^ (54 - s)) in *.
    assert (0 < T) as HT by (unfold T; apply Z.pow_pos_nonneg; lia).
    pose proof (Z.div_mod p S2 ltac:(lia)) as Hq.
    pose proof (Z.mod_pos_bound p S2 ltac:(lia)) as Hr.
    set (q := p / S2) in *. set (r := p mod S2) in *.
    assert (k * T <= q) as Hlow.
    { unfold q. apply Z.div_le_lower_bound; [lia|]. nia. }
    match goal with
    | |- context [if ?b then q + 1 else q] =>
        set (q' := if b then q + 1 else q);
        assert (q <= q' <= q + 1) as Hq' by (unfold q'; destruct b; lia)
    end.
    symmetry. apply (Z.div_unique_pos _ _ _ (q' * S2 - k * 2 ^ 54)); nia.
Qed.

End Binary64.

(** For a string of any length that an engine allows (all are below 2^32)
    [Math.floor(n * 0.2)] is the integer quotient of [n] by 5. *)
Lemma floorTimesPointTwo_quotient (n : nat) :
  (Z.of_nat n < 2 ^ 32)%Z -> floorTimesPointTwo n = n / 5.
Proof.
  intros Hn. unfold floorTimesPointTwo.
  rewrite roundBinary64_pointTwo by lia.
  change 5%Z with (Z.of_nat 5). rewrite <- Nat2Z.inj_div. apply Nat2Z.id.
Qed.

(** ** The distance function and the matcher *)

Lemma getEditDistance_normalized s t :
  getEditDistance (normalizeText s) (normalizeText t)
  = lev (normalizeText s) (normalizeText t).
Proof. now rewrite getEditDistance_lev, !normalizeText_idem. Qed.

(** C2: on strings that the caller has normalised, [getEditDistance a b] is
    the least number of single-character insertions, deletions and
    substitutions that turn [a] into [b]; when either string is empty the
    result is the length of the other; and the distance from "kitten" to
    "sitting" is 3. *)
Theorem getEditDistance_levenshtein (a b : jsstring) :
  normalizeText a = a -> normalizeText b = b ->
  min_edits a b (getEditDistance a b)
  /\ (a = [] -> getEditDistance a b = length b)
  /\ (b = [] -> getEditDistance a b = length a)
  /\ getEditDistance (str "kitten") (str "sitting") = 3.
Proof.
  intros Ha Hb. rewrite getEditDistance_lev, Ha, Hb. split_and!.
  - apply lev_min_edits.
  - intros ->. apply lev_nil_l.
  - intros ->. apply lev_nil_r.
  - reflexivity.
Qed.

Lemma getEditDistance_levenshtein_witness :
  normalizeText (str "kitten") = str "kitten"
  /\ normalizeText (str "sitting") = str "sitting"
  /\ min_edits (str "kitten") (str "sitting")
       (getEditDistance (str "kitten") (str "sitting")).
Proof.
  split; [reflexivity|]. split; [reflexivity|].
  exact (proj1 (getEditDistance_levenshtein (str "kitten") (str "sitting")
                  eq_refl eq_refl)).
Defined.

(** C9: the distance does not depend on the order of its arguments. *)
Theorem getEditDistance_sym (a b : jsstring) :
  getEditDistance a b = getEditDistance b a.
Proof. rewrite !getEditDistance_lev. apply lev_sym. Qed.

(** The other tests of the specification. *)
Lemma getEditDistance_self (s : jsstring) : getEditDistance s s = 0.
Proof. rewrite getEditDistance_lev. apply lev_refl. Qed.

Example matchesWithTolerance_typo :
  matchesWithTolerance (str "enginering") (JsString (str "Engineering")) = Ok true.
Proof. vm_compute. reflexivity. Qed.

Example matchesWithTolerance_unrelated :
  matchesWithTolerance (str "xyz123") (JsString (str "Computer Science")) = Ok false.
Proof. vm_compute. reflexivity. Qed.

(** C8: an empty query matches every candidate text. *)
Theorem matchesWithTolerance_empty_query (text : jsval) :
  matchesWithTolerance [] text = Ok true.
Proof. reflexivity. Qed.

(** C10: a query that is not empty but whose normal form is empty (one made
    of punctuation only, say) matches every candidate text, because every
    normalised text contains the empty string. *)
Theorem matchesWithTolerance_blank_query (query text : jsstring) :
  query <> [] -> normalizeText query = [] ->
  matchesWithTolerance query (JsString text) = Ok true.
Proof.
  intros Hq Hn. unfold matchesWithTolerance.
  destruct query as [|c q]; [congruence|]. cbn [isEmpty receiver mbind result_bind].
  now rewrite Hn, includes_nil.
Qed.

Lemma matchesWithTolerance_blank_query_witness :
  str "?!" <> [] /\ normalizeText (str "?!") = []
  /\ matchesWithTolerance (str "?!") (JsString (str "Physics")) = Ok true.
Proof.
  split; [discriminate|]. split; [reflexivity|].
  apply (matchesWithTolerance_blank_query (str "?!") (str "Physics"));
    [discriminate|reflexivity].
Defined.

(** C1: when the normalised text contains the normalised query the matcher
    answers true; otherwise, with the threshold max(2, floor(0.2 * length of
    the normalised query)), it answers true exactly when the edit distance
    from the query to the whole text is within the threshold or the edit
    distance from the query to some whitespace-delimited word of the text
    is.  Query and text are the normalised ones throughout, the edit
    distance is [lev], the least number of single edits ([lev_min_edits]),
    and the threshold is the one the code computes, which is
    max(2, length / 5) for every length below 2^32. *)
Theorem matchesWithTolerance_spec (query text : jsstring) :
  let normalizedQuery := normalizeText query in
  let normalizedText := normalizeText text in
  let threshold := maxDistanceFor (length normalizedQuery) in
  ((Z.of_nat (length normalizedQuery) < 2 ^ 32)%Z ->
   threshold = Nat.max 2 (length normalizedQuery / 5))
  /\ (substring normalizedQuery normalizedText ->
      matchesWithTolerance query (JsString text) = Ok true)
  /\ (~ substring normalizedQuery normalizedText ->
      exists b, matchesWithTolerance query (JsString text) = Ok b
        /\ (b = true <->
            lev normalizedQuery normalizedText <= threshold
            \/ exists w, word_of w normalizedText
                         /\ lev normalizedQuery w <= threshold)).
Proof.
  intros nq nt threshold. split.
  { intros Hlen. unfold threshold, maxDistanceFor.
    now rewrite floorTimesPointTwo_quotient. }
  unfold matchesWithTolerance.
  destruct query as [|c q].
  { split; [reflexivity|]. intros Hno. exfalso. apply Hno. now exists [], nt. }
  cbn [isEmpty receiver mbind result_bind]. fold nq nt.
  destruct (includes nt nq) eqn:Hinc.
  { split; [reflexivity|]. intros Hno. exfalso. now apply Hno, includes_spec. }
  split.
  { intros Hsub. apply includes_spec in Hsub. congruence. }
  intros _. eexists. split; [reflexivity|].
  fold threshold.
  rewrite orb_true_iff, Nat.leb_le, existsb_exists.
  unfold nq at 1, nt at 1. rewrite getEditDistance_normalized. fold nq nt.
  split.
  - intros [Hd|(w & Hin & Hw)]; [now left|].
    apply Nat.leb_le in Hw. apply list_elem_of_In in Hin.
    destruct w as [|d w].
    + left. apply splitWhitespace_trimmed_empty in Hin.
      rewrite getEditDistance_lev in Hw. unfold nq in Hw.
      rewrite normalizeText_idem in Hw.
      change (normalizeText []) with (@nil ascii) in Hw.
      replace nt with (@nil ascii) by (symmetry; exact Hin). exact Hw.
    + right. exists (d :: w).
      apply splitWhitespace_word in Hin; [|discriminate].
      split; [exact Hin|].
      rewrite getEditDistance_lev in Hw. unfold nq in Hw.
      now rewrite normalizeText_idem, (word_of_normalized _ _ Hin) in Hw.
  - intros [Hd|(w & Hin & Hw)]; [now left|].
    right. exists w. split.
    + apply list_elem_of_In.
      apply (splitWhitespace_word nt w); [apply Hin|exact Hin].
    + apply Nat.leb_le. rewrite getEditDistance_lev. unfold nq.
      now rewrite normalizeText_idem, (word_of_normalized _ _ Hin).
Qed.

Lemma matchesWithTolerance_spec_witness :
  maxDistanceFor (length (normalizeText (str "phisics"))) = 2
  /\ matchesWithTolerance (str "phisics") (JsString (str "Physics")) = Ok true.
Proof.
  destruct (matchesWithTolerance_spec (str "phisics") (str "Physics"))
    as (Hthreshold & _ & Hfar).
  split; [apply Hthreshold; reflexivity|].
  destruct Hfar as (b & Hb & Hiff).
  - intros Hsub. apply includes_spec in Hsub. discriminate Hsub.
  - rewrite Hb. f_equal. apply Hiff. left. vm_compute. lia.
Defined.


(** ** The loader *)

Lemma isQuote_quoteChar : isQuote quoteChar = true.
Proof. reflexivity. Qed.

Lemma isQuote_false c : c <> quoteChar -> isQuote c = false.
Proof. intros Hc. unfold isQuote. now apply bool_decide_eq_false. Qed.

(** A character that is not a quote is read on its own, whatever follows. *)
Lemma parseCSVLoop_plain c rest values current inQuotes :
  isQuote c = false ->
  parseCSVLoop (c :: rest) values current inQuotes
  = if isComma c && negb inQuotes
    then parseCSVLoop rest (values ++ [trim current]) [] inQuotes
    else parseCSVLoop rest values (current ++ [c]) inQuotes.
Proof. intros Hc. destruct rest; simpl; now rewrite Hc. Qed.

(** Two quotes in a row add one quote to the value being read. *)
Lemma parseCSVLoop_doubled rest values current inQuotes :
  parseCSVLoop (quoteChar :: quoteChar :: rest) values current inQuotes
  = parseCSVLoop rest values (current ++ [quoteChar]) inQuotes.
Proof. reflexivity. Qed.

(** A quote that no quote follows opens or closes the quoted part. *)
Lemma parseCSVLoop_single rest values current inQuotes :
  match rest with [] => True | c :: _ => c <> quoteChar end ->
  parseCSVLoop (quoteChar :: rest) values current inQuotes
  = parseCSVLoop rest values current (negb inQuotes).
Proof.
  destruct rest as [|c rest]; [reflexivity|]. intros Hc.
  cbn [parseCSVLoop]. now rewrite isQuote_quoteChar, (isQuote_false c Hc).
Qed.

Lemma parseCSVLoop_quotes k rest values current inQuotes :
  parseCSVLoop (replicate (2 * k) quoteChar ++ rest) values current inQuotes
  = parseCSVLoop rest values (current ++ replicate k quoteChar) inQuotes.
Proof.
  revert current. induction k as [|k IH]; intros current.
  - simpl. now rewrite app_nil_r.
  - replace (2 * S k) with (S (S (2 * k))) by lia.
    cbn [replicate app]. rewrite parseCSVLoop_doubled, IH.
    now rewrite <- app_assoc.
Qed.

Lemma parseCSVLoop_inside field rest values current :
  match rest with [] => True | c :: _ => c <> quoteChar end ->
  parseCSVLoop (escapeQuotes field ++ quoteChar :: rest) values current true
  = parseCSVLoop rest values (current ++ field) false.
Proof.
  intros Hrest. revert current.
  induction field as [|c field IH]; intros current.
  - unfold escapeQuotes. cbn [flat_map app]. rewrite app_nil_r.
    now apply parseCSVLoop_single.
  - unfold escapeQuotes in *. cbn [flat_map].
    destruct (decide (c = quoteChar)) as [->|Hc].
    + rewrite isQuote_quoteChar. cbn [app].
      rewrite parseCSVLoop_doubled, IH. now rewrite <- app_assoc.
    + rewrite (isQuote_false c Hc). cbn [app].
      rewrite parseCSVLoop_plain by now apply isQuote_false.
      rewrite andb_false_r, IH. now rewrite <- app_assoc.
Qed.

Lemma hasPlainChar_split field :
  hasPlainChar field ->
  exists k c rest, field = replicate k quoteChar ++ c :: rest /\ c <> quoteChar.
Proof.
  intros (c & Hin & Hc). induction field as [|d field IH].
  - now apply elem_of_nil in Hin.
  - destruct (decide (d = quoteChar)) as [->|Hd].
    + apply elem_of_cons in Hin as [->|Hin]; [congruence|].
      destruct (IH Hin) as (k & e & rest & -> & He).
      now exists (S k), e, rest.
    + now exists 0, d, field.
Qed.

Lemma escapeQuotes_app a b : escapeQuotes (a ++ b) = escapeQuotes a ++ escapeQuotes b.
Proof. unfold escapeQuotes. apply flat_map_app. Qed.

Lemma escapeQuotes_quotes k :
  escapeQuotes (replicate k quoteChar) = replicate (2 * k) quoteChar.
Proof.
  induction k as [|k IH]; [reflexivity|].
  replace (2 * S k) with (S (S (2 * k))) by lia.
  cbn [replicate]. rewrite <- IH. reflexivity.
Qed.

Lemma replicate_cons_snoc {A} k (x : A) : x :: replicate k x = replicate k x ++ [x].
Proof. induction k as [|k IH]; [reflexivity|]. simpl. now rewrite <- IH. Qed.

(** A field written in quotes reads back as its text, trimmed. *)
Lemma parseCSVLine_quoteField field :
  hasPlainChar field -> parseCSVLine (quoteField field) = [trim field].
Proof.
  intros Hp. destruct (hasPlainChar_split field Hp) as (k & c & rest & -> & Hc).
  unfold parseCSVLine, quoteField.
  rewrite escapeQuotes_app, escapeQuotes_quotes.
  replace ([quoteChar] ++ (replicate (2 * k) quoteChar ++ escapeQuotes (c :: rest))
           ++ [quoteChar])
    with (replicate (2 * k) quoteChar
          ++ quoteChar :: escapeQuotes (c :: rest) ++ [quoteChar]).
  2:{ rewrite <- (app_assoc (replicate (2 * k) quoteChar)).
      change ([quoteChar] ++ ?x ++ ?y) with ((quoteChar :: x) ++ y).
      now rewrite replicate_cons_snoc, <- app_assoc. }
  rewrite parseCSVLoop_quotes. cbn [app].
  rewrite parseCSVLoop_single.
  2:{ change (c :: rest) with ([c] ++ rest). rewrite escapeQuotes_app.
      unfold escapeQuotes at 1. cbn [flat_map]. now rewrite (isQuote_false c Hc). }
  cbn [negb]. rewrite (parseCSVLoop_inside (c :: rest) [] [] _ I).
  reflexivity.
Qed.

(** C7: a quoted field with a comma and doubled quotes inside is read as one
    value, the comma kept and each doubled quote read as one quote: the
    field of the example reads back as its text, and so does every field
    written in quotes that has a character other than the quote. *)
Theorem parseCSVLine_quoted :
  parseCSVLine quotedExample = [literalExample]
  /\ forall field, hasPlainChar field ->
       parseCSVLine (quoteField field) = [trim field].
Proof. split; [reflexivity|apply parseCSVLine_quoteField]. Qed.

Lemma parseCSVLine_quoted_witness :
  hasPlainChar literalExample
  /\ quoteField literalExample = quotedExample
  /\ trim literalExample = literalExample
  /\ parseCSVLine (quoteField literalExample) = [trim literalExample].
Proof.
  assert (hasPlainChar literalExample) as Hp.
  { exists "B"%char. split; [left|discriminate]. }
  split; [exact Hp|]. split; [reflexivity|]. split; [reflexivity|].
  exact (proj2 parseCSVLine_quoted literalExample Hp).
Defined.


(** What [forEach] leaves in [row] under [name]: the value of the last
    column called [name], or what was there before. *)
Lemma forEachHeader_lookup headers : forall index values (row : rowObject) name,
  forEachHeader headers index values row !! name
  = match lastIndexOf headers name with
    | Some i => Some (default [] (values !! (index + i)))
    | None => row !! name
    end.
Proof.
  induction headers as [|header rest IH]; intros index values row name.
  - reflexivity.
  - cbn [forEachHeader lastIndexOf]. rewrite IH.
    destruct (lastIndexOf rest name) as [i|].
    + now replace (S index + i) with (index + S i) by lia.
    + case_decide as Hh.
      * subst header. now rewrite lookup_insert_eq, Nat.add_0_r.
      * now rewrite lookup_insert_ne.
Qed.

Lemma getProp_forEachHeader headers values name :
  getProp (forEachHeader headers 0 values ∅) name = fieldOf headers values name.
Proof.
  unfold getProp, fieldOf. rewrite forEachHeader_lookup.
  destruct (lastIndexOf headers name); [reflexivity|].
  now rewrite lookup_empty.
Qed.

(** ** The collection is never written *)

Lemma newArray_fresh contents (h : heap) address :
  is_Some (h !! address) -> (newArray contents h).1 <> address.
Proof.
  intros Hin Heq. unfold newArray in Heq. cbn [fst] in Heq.
  apply elem_of_dom in Hin. rewrite <- Heq in Hin.
  now apply is_fresh in Hin.
Qed.









(** ** The filter/sort composer *)

Lemma isEmpty_true s : isEmpty s = true <-> s = [].
Proof. destruct s; simpl; split; congruence. Qed.

Lemma arrayFilter_pure {A} (p : A -> result bool) (q : A -> bool) l :
  Forall (fun x => p x = Ok (q x)) l ->
  arrayFilter p l = Ok (List.filter q l).
Proof.
  induction 1 as [|x l Hx _ IH]; [reflexivity|].
  cbn [arrayFilter List.filter]. rewrite Hx, IH. reflexivity.
Qed.

Lemma arrayFilter_total {A} (p : A -> result bool) l :
  Forall (fun x => exists b, p x = Ok b) l ->
  exists kept, arrayFilter p l = Ok kept /\ sublist kept l.
Proof.
  induction 1 as [|x l [b Hx] _ (kept & IH & Hsub)].
  - exists []. split; [reflexivity|constructor].
  - cbn [arrayFilter]. rewrite Hx, IH. cbn [mbind result_bind].
    destruct b; eexists; (split; [reflexivity|]); now constructor.
Qed.

Lemma filter_all {A} (l : list A) : List.filter (fun _ => true) l = l.
Proof. induction l as [|x l IH]; [reflexivity|]. simpl. now rewrite IH. Qed.

Lemma filter_decide {A} (P : A -> Prop) `{!forall x, Decision (P x)}
    (q : A -> bool) (l : list A) :
  (forall x, q x = true <-> P x) -> List.filter q l = filter P l.
Proof.
  intros Hq. induction l as [|x l IH]; [reflexivity|].
  rewrite filter_cons. cbn [List.filter]. rewrite IH.
  destruct (q x) eqn:Hx; case_decide as HP; try reflexivity.
  - apply Hq in Hx. contradiction.
  - apply Hq in HP. congruence.
Qed.

Lemma strictEq_spec v s : strictEq v s = true <-> v = JsString s.
Proof.
  destruct v as [|x]; simpl; [split; discriminate|].
  rewrite bool_decide_eq_true. split; congruence.
Qed.

Lemma matchesWithTolerance_total query text :
  exists b, matchesWithTolerance query (JsString text) = Ok b.
Proof.
  unfold matchesWithTolerance. destruct (isEmpty query); [now eexists|].
  cbn [receiver mbind result_bind].
  destruct (includes _ _); now eexists.
Qed.

Section ComposerFacts.
Variable localeCompare : jsstring -> jsstring -> Z.

Local Abbreviation getFilteredCourses := (getFilteredCourses localeCompare).
Local Abbreviation renderCourses := (renderCourses localeCompare).
Local Abbreviation compareBy := (compareBy localeCompare).

Lemma matchesCourse_total universityQuery courseAreaQuery courseQuery
    degreeQuery c :
  wfCourse c ->
  exists b, matchesCourse universityQuery courseAreaQuery courseQuery
              degreeQuery c = Ok b.
Proof.
  intros ([name Hname] & [uni Huni] & _ & _ & _ & _ & [area Harea] & _).
  unfold matchesCourse. rewrite Hname, Huni, Harea.
  destruct (matchesWithTolerance_total courseQuery name) as [b ->].
  destruct (isEmpty universityQuery), (isEmpty courseAreaQuery);
    cbn [receiver mbind result_bind]; now eexists.
Qed.

Lemma matchesCourse_degree_only degreeQuery c :
  matchesCourse [] [] [] degreeQuery c
  = Ok (if isEmpty degreeQuery then true else strictEq (degreeType c) degreeQuery).
Proof. reflexivity. Qed.

(** Without a sort key [getFilteredCourses] is the filter alone. *)
Lemma getFilteredCourses_unsorted st :
  sortFilter st = [] ->
  getFilteredCourses st
  = arrayFilter
      (matchesCourse (toLowerCase (trim (universitySearch st)))
         (toLowerCase (trim (courseAreaSearch st)))
         (toLowerCase (trim (courseSearch st))) (degreeFilter st))
      (courses st).
Proof.
  intros Hs. unfold getFilteredCourses. rewrite Hs.
  destruct (arrayFilter _ _); reflexivity.
Qed.

(** With the key "university" it is the filter and then the sort. *)
Lemma getFilteredCourses_by_university st :
  sortFilter st = str "university" ->
  getFilteredCourses st
  = (filtered ← arrayFilter
       (matchesCourse (toLowerCase (trim (universitySearch st)))
          (toLowerCase (trim (courseAreaSearch st)))
          (toLowerCase (trim (courseSearch st))) (degreeFilter st))
       (courses st);
     arraySort (compareBy universityName) filtered).
Proof.
  intros Hs. unfold getFilteredCourses. rewrite Hs.
  destruct (arrayFilter _ _) as [filtered|]; [|reflexivity].
  cbn [mbind result_bind].
  destruct (arraySort _ _); reflexivity.
Qed.

(** C4: in the initial state the page shows the first 10 records of the
    whole collection, in dataset order, and reports the number of all
    records. *)
Theorem renderCourses_initial (st : AppState) :
  isInitialState st = true ->
  exists st', renderCourses st = Ok st'
    /\ courseGrid st' = take 10 (courses st)
    /\ resultsCount st'
       = numberToString (length (courses st)) ++ str " course(s) found".
Proof.
  intros Hinit. unfold renderCourses. rewrite Hinit.
  unfold isInitialState in Hinit. rewrite !andb_true_iff in Hinit.
  destruct Hinit as ((((Hu & Ha) & Hc) & Hd) & Hs).
  apply isEmpty_true in Hu, Ha, Hc, Hd, Hs.
  rewrite (getFilteredCourses_unsorted st Hs), Hu, Ha, Hc, Hd.
  change (toLowerCase []) with (@nil ascii).
  rewrite (arrayFilter_pure _ (fun _ => true)), filter_all.
  - cbn [mbind result_bind]. eexists. split; [reflexivity|].
    split; reflexivity.
  - apply Forall_forall. intros c _. reflexivity.
Qed.

(** C5: with a degree type selected and every other control unset, the
    result is the records whose [degreeType] is the selected value, in
    the order in which the collection has them. *)
Theorem getFilteredCourses_degree (st : AppState) :
  trim (universitySearch st) = [] ->
  trim (courseAreaSearch st) = [] ->
  trim (courseSearch st) = [] ->
  degreeFilter st <> [] ->
  sortFilter st = [] ->
  getFilteredCourses st
  = Ok (filter (fun c => degreeType c = JsString (degreeFilter st)) (courses st)).
Proof.
  intros Hu Ha Hc Hd Hs.
  rewrite (getFilteredCourses_unsorted st Hs), Hu, Ha, Hc.
  change (toLowerCase []) with (@nil ascii).
  rewrite (arrayFilter_pure _ (fun c => strictEq (degreeType c) (degreeFilter st))).
  - f_equal. apply filter_decide. intros c. apply strictEq_spec.
  - apply Forall_forall. intros c _. rewrite matchesCourse_degree_only.
    destruct (degreeFilter st); [congruence|reflexivity].
Qed.

Section Sorting.
Hypothesis localeCompare_consistent : consistentComparator localeCompare.
Variable field : course -> jsval.

Lemma compareBy_defined a b :
  isString (field a) ->
  compareBy field a b
  = Ok (localeCompare (toStringVal (field a)) (toStringVal (field b))).
Proof. intros [s Hs]. unfold compareBy. now rewrite Hs. Qed.

Lemma sortInsert_sorted x l :
  isString (field x) ->
  StronglySorted (orderBy localeCompare field) l ->
  exists l', sortInsert (compareBy field) x l = Ok l'
    /\ l' ≡ₚ x :: l
    /\ StronglySorted (orderBy localeCompare field) l'.
Proof.
  intros Hx Hl. destruct localeCompare_consistent as [Htotal Htrans].
  induction Hl as [|y l Hl IH Hy].
  - exists [x]. split; [reflexivity|]. split; [reflexivity|].
    constructor; constructor.
  - cbn [sortInsert]. rewrite (compareBy_defined x y Hx).
    cbn [mbind result_bind].
    destruct (Z.leb_spec (localeCompare (toStringVal (field x))
                            (toStringVal (field y))) 0) as [Hle|Hgt].
    + exists (x :: y :: l). split; [reflexivity|]. split; [reflexivity|].
      constructor; [now constructor|].
      constructor; [exact Hle|].
      eapply Forall_impl; [exact Hy|].
      intros z Hz. unfold orderBy in *. eapply Htrans; eassumption.
    + destruct IH as (l' & -> & Hperm & Hsorted).
      cbn [mbind result_bind]. exists (y :: l').
      split; [reflexivity|]. split.
      * rewrite Hperm. apply perm_swap.
      * constructor; [exact Hsorted|].
        rewrite Hperm. constructor; [|exact Hy].
        unfold orderBy.
        destruct (Htotal (toStringVal (field x)) (toStringVal (field y)));
          [lia|assumption].
Qed.

Lemma arraySort_sorted l :
  Forall (fun c => isString (field c)) l ->
  exists l', arraySort (compareBy field) l = Ok l'
    /\ l' ≡ₚ l
    /\ StronglySorted (orderBy localeCompare field) l'.
Proof.
  induction 1 as [|x l Hx _ (l0 & IH & Hperm & Hsorted)].
  - exists []. split; [reflexivity|]. split; [reflexivity|constructor].
  - cbn [arraySort]. rewrite IH. cbn [mbind result_bind].
    destruct (sortInsert_sorted x l0 Hx Hsorted) as (l' & -> & Hp' & Hs').
    exists l'. split; [reflexivity|]. split; [|exact Hs'].
    now rewrite Hp', Hperm.
Qed.

End Sorting.

(** C6, amended: on records that have all their columns, the filter keeps
    the records in dataset order, and that is the result when no sort key is
    chosen; under the key "university" the result is those same records
    in non-decreasing order of [universityName] as [localeCompare] orders
    strings, the collation of the host's locale, which need not be the
    lexicographic order of the code units. *)
Theorem getFilteredCourses_order (st : AppState) :
  consistentComparator localeCompare ->
  Forall wfCourse (courses st) ->
  exists unsorted,
    getFilteredCourses (withSort [] st) = Ok unsorted
    /\ sublist unsorted (courses st)
    /\ (sortFilter st = [] -> getFilteredCourses st = Ok unsorted)
    /\ (sortFilter st = str "university" ->
        exists sorted, getFilteredCourses st = Ok sorted
          /\ sorted ≡ₚ unsorted
          /\ StronglySorted (orderBy localeCompare universityName) sorted).
Proof.
  intros Hcmp Hwf.
  destruct (arrayFilter_total
              (matchesCourse (toLowerCase (trim (universitySearch st)))
                 (toLowerCase (trim (courseAreaSearch st)))
                 (toLowerCase (trim (courseSearch st))) (degreeFilter st))
              (courses st)) as (unsorted & Hfilter & Hsub).
  { eapply Forall_impl; [exact Hwf|]. intros c Hc.
    now apply matchesCourse_total. }
  exists unsorted. split_and!.
  - now rewrite getFilteredCourses_unsorted.
  - exact Hsub.
  - intros Hs. now rewrite getFilteredCourses_unsorted.
  - intros Hs. rewrite (getFilteredCourses_by_university st Hs), Hfilter.
    cbn [mbind result_bind].
    apply (arraySort_sorted Hcmp).
    apply Forall_forall. intros c Hc.
    rewrite Forall_forall in Hwf. apply (Hwf c).
    eapply elem_of_sublist; eassumption.
Qed.

End ComposerFacts.

(** ** The examples *)

Lemma codeUnitCompare_consistent : consistentComparator codeUnitCompare.
Proof.
  split.
  - induction a as [|x a IH]; intros [|y b]; simpl; try lia.
    destruct (N.ltb_spec (code x) (code y)), (N.ltb_spec (code y) (code x));
      try lia. apply IH.
  - induction a as [|x a IH]; intros [|y b] [|z c]; simpl; try lia.
    destruct (N.ltb_spec (code x) (code y)), (N.ltb_spec (code y) (code x)),
      (N.ltb_spec (code y) (code z)), (N.ltb_spec (code z) (code y)),
      (N.ltb_spec (code x) (code z)), (N.ltb_spec (code z) (code x));
      try lia. apply IH.
Qed.

Lemma sampleState_wf : Forall wfCourse (courses sampleState).
Proof.
  vm_compute. repeat constructor; eexists; reflexivity.
Qed.

Lemma renderCourses_initial_witness :
  isInitialState crowdedState = true
  /\ exists st', renderCourses codeUnitCompare crowdedState = Ok st'
       /\ length (courseGrid st') = 10
       /\ resultsCount st' = str "12 course(s) found".
Proof.
  split; [reflexivity|].
  destruct (renderCourses_initial codeUnitCompare crowdedState eq_refl)
    as (st' & Hr & Hgrid & Hcount).
  exists st'. split; [exact Hr|]. split.
  - rewrite Hgrid. reflexivity.
  - rewrite Hcount. reflexivity.
Defined.

Lemma getFilteredCourses_degree_witness :
  degreeType <$> parseCSV sampleCsv
  = [JsString (str "Bachelor"); JsString (str "Master"); JsString (str "Bachelor")]
  /\ exists l,
       getFilteredCourses codeUnitCompare (withDegree (str "Bachelor") sampleState)
       = Ok l
       /\ courseName <$> l = [JsString (str "Physics"); JsString (str "Design")].
Proof.
  split; [reflexivity|].
  eexists. split.
  - apply (getFilteredCourses_degree codeUnitCompare
             (withDegree (str "Bachelor") sampleState));
      [reflexivity|reflexivity|reflexivity|discriminate|reflexivity].
  - vm_compute. reflexivity.
Defined.

Lemma getFilteredCourses_order_witness :
  exists sorted,
    getFilteredCourses codeUnitCompare (withSort (str "university") sampleState)
    = Ok sorted
    /\ StronglySorted (orderBy codeUnitCompare universityName) sorted
    /\ universityName <$> sorted
       = [JsString (str "Bologna"); JsString (str "Milano");
          JsString (str "Sapienza")].
Proof.
  destruct (getFilteredCourses_order codeUnitCompare
              (withSort (str "university") sampleState)
              codeUnitCompare_consistent sampleState_wf)
    as (unsorted & _ & _ & _ & Hsorted).
  destruct (Hsorted eq_refl) as (sorted & Hr & _ & Hs).
  exists sorted. split; [exact Hr|]. split; [exact Hs|].
  assert (Ok sorted = getFilteredCourses codeUnitCompare
                        (withSort (str "university") sampleState)) as Heq
    by (symmetry; exact Hr).
  vm_compute in Heq. injection Heq as ->. reflexivity.
Defined.

(** ** The order of the sort key *)

Lemma code_inj (c d : ascii) : code c = code d -> c = d.
Proof.
  unfold code. intros H.
  rewrite <- (ascii_N_embedding c), <- (ascii_N_embedding d). now rewrite H.
Qed.

Lemma codeUnitCompare_refl (a : jsstring) : codeUnitCompare a a = 0%Z.
Proof.
  induction a as [|x a IH]; simpl; [reflexivity|].
  now rewrite N.ltb_irrefl.
Qed.

Lemma codeUnitCompare_opp (a b : jsstring) :
  codeUnitCompare a b = (- codeUnitCompare b a)%Z.
Proof.
  revert b. induction a as [|x a IH]; intros [|y b]; simpl; try reflexivity.
  destruct (N.ltb_spec (code x) (code y)), (N.ltb_spec (code y) (code x));
    try lia. apply IH.
Qed.

Lemma codeUnitCompare_eq (a b : jsstring) :
  codeUnitCompare a b = 0%Z -> a = b.
Proof.
  revert b. induction a as [|x a IH]; intros [|y b]; simpl; try lia.
  - reflexivity.
  - destruct (N.ltb_spec (code x) (code y)) as [Hxy|Hxy],
      (N.ltb_spec (code y) (code x)) as [Hyx|Hyx]; try lia.
    intros Hrest. f_equal; [apply code_inj; lia | now apply IH].
Qed.

Lemma collationCompare_consistent : consistentComparator collationCompare.
Proof.
  destruct codeUnitCompare_consistent as [Htotal Htrans].
  split.
  - intros a b. unfold collationCompare. cbn zeta.
    rewrite (codeUnitCompare_opp (toLowerCase b) (toLowerCase a)).
    destruct (Z.eqb_spec (codeUnitCompare (toLowerCase a) (toLowerCase b)) 0)
      as [->|Hne].
    + simpl. destruct (Htotal a b); auto.
    + destruct (Z.eqb_spec (- codeUnitCompare (toLowerCase a) (toLowerCase b)) 0);
        lia.
  - intros a b c. unfold collationCompare. cbn zeta.
    destruct (Z.eqb_spec (codeUnitCompare (toLowerCase a) (toLowerCase b)) 0)
      as [Hab|Hab];
    destruct (Z.eqb_spec (codeUnitCompare (toLowerCase b) (toLowerCase c)) 0)
      as [Hbc|Hbc].
    + apply codeUnitCompare_eq in Hab, Hbc. rewrite Hab, Hbc.
      rewrite codeUnitCompare_refl. simpl. intros H1 H2.
      now apply (Htrans c b a).
    + apply codeUnitCompare_eq in Hab. rewrite Hab.
      destruct (Z.eqb_spec (codeUnitCompare (toLowerCase b) (toLowerCase c)) 0);
        [lia|]. auto.
    + apply codeUnitCompare_eq in Hbc. rewrite <- Hbc.
      destruct (Z.eqb_spec (codeUnitCompare (toLowerCase a) (toLowerCase b)) 0);
        [lia|]. auto.
    + intros H1 H2.
      pose proof (Htrans _ _ _ H1 H2) as H3.
      destruct (Z.eqb_spec (codeUnitCompare (toLowerCase a) (toLowerCase c)) 0)
        as [Hac|Hac]; [|exact H3].
      apply codeUnitCompare_eq in Hac. rewrite <- Hac in Hbc, H2.
      rewrite (codeUnitCompare_opp (toLowerCase b) (toLowerCase a)) in Hbc, H2.
      lia.
Qed.

Lemma mixedCaseState_wf : Forall wfCourse (courses mixedCaseState).
Proof.
  vm_compute. repeat constructor; eexists; reflexivity.
Qed.

(** C6 as the specification words it: under the key "university" the result
    would be in non-decreasing lexicographic order of [universityName].  It is
    not: the code sorts with [localeCompare], and a comparator that orders
    words alphabetically without regard to case, as the collation of a
    browser does, is a consistent comparator under which the records of
    [mixedCaseCsv], all well formed, come out as apple, Banana, cherry, which
    is not the lexicographic order (the capital B is code unit 66, the small
    a is 97). *)
Lemma getFilteredCourses_lexicographic_counterexample :
  consistentComparator collationCompare
  /\ Forall wfCourse (courses mixedCaseState)
  /\ sortFilter mixedCaseState = str "university"
  /\ exists sorted,
       getFilteredCourses collationCompare mixedCaseState = Ok sorted
       /\ universityName <$> sorted
          = [JsString (str "apple"); JsString (str "Banana");
             JsString (str "cherry")]
       /\ ~ lexicographicByUniversity sorted.
Proof.
  split_and!.
  - exact collationCompare_consistent.
  - exact mixedCaseState_wf.
  - reflexivity.
  - destruct (getFilteredCourses collationCompare mixedCaseState)
      as [sorted|e] eqn:Hrun; vm_compute in Hrun; [|discriminate].
    injection Hrun as <-.
    eexists. split_and!.
    + reflexivity.
    + vm_compute. reflexivity.
    + unfold lexicographicByUniversity. intros Hsorted.
      apply StronglySorted_inv in Hsorted as [_ Hfirst].
      apply List.Forall_inv in Hfirst.
      unfold orderBy in Hfirst. vm_compute in Hfirst.
      now apply Hfirst.
Qed.

(** * Further properties of the code *)

(** ** The normaliser and the distance *)

Lemma dropWhile_length {A} (p : A -> bool) s : length (dropWhile p s) <= length s.
Proof.
  induction s as [|c r IH]; simpl; [lia|]. destruct (p c); simpl; lia.
Qed.

Lemma trim_length s : length (trim s) <= length s.
Proof.
  unfold trim, trimEnd, trimStart. rewrite length_rev.
  etransitivity; [apply dropWhile_length|]. rewrite length_rev.
  apply dropWhile_length.
Qed.

(** X1: the normal form of a text has only characters of [a-z0-9] and white
    space, begins and ends with none of white space, is no longer than the
    text, and is its own normal form. *)
Theorem normalizeText_normal_form (value : jsstring) :
  Forall (fun c => isKept c = true) (normalizeText value)
  /\ trim (normalizeText value) = normalizeText value
  /\ length (normalizeText value) <= length value
  /\ normalizeText (normalizeText value) = normalizeText value.
Proof.
  split_and!.
  - apply normalizeText_kept.
  - apply normalizeText_trimmed.
  - unfold normalizeText. etransitivity; [apply trim_length|].
    etransitivity; [apply List.filter_length_le|].
    unfold toLowerCase. now rewrite length_map.
  - apply normalizeText_idem.
Qed.

(** X2: for all strings, normalised or not, the distance is the least
    number of single edits between the normal forms of the two. *)
Theorem getEditDistance_min_edits (value target : jsstring) :
  min_edits (normalizeText value) (normalizeText target)
    (getEditDistance value target).
Proof. rewrite getEditDistance_lev. apply lev_min_edits. Qed.

Lemma edits_zero {A} (s t : list A) : edits 0 s t -> s = t.
Proof. now inversion 1. Qed.

Lemma edits_app {A} n m (s u t : list A) :
  edits n s u -> edits m u t -> edits (n + m) s t.
Proof.
  induction 1 as [s|n s v u He _ IH]; intros Hm; [exact Hm|].
  simpl. econstructor; [exact He|]. now apply IH.
Qed.

Lemma edit1_length {A} (s t : list A) :
  edit1 s t -> length s <= S (length t) /\ length t <= S (length s).
Proof. intros [l c r|l c r|l c d r]; rewrite !length_app; simpl; lia. Qed.

Lemma edits_length {A} n (s t : list A) :
  edits n s t -> length s <= n + length t /\ length t <= n + length s.
Proof.
  induction 1 as [s|n s u t He _ IH]; [lia|].
  apply edit1_length in He. lia.
Qed.

Lemma lev_upper_bound {A} `{EqDecision A} (s t : list A) :
  lev s t <= Nat.max (length s) (length t).
Proof.
  revert t. induction s as [|a s IH]; intros t.
  - rewrite lev_nil_l. lia.
  - destruct t as [|b t].
    + rewrite lev_nil_r. lia.
    + rewrite lev_cons. pose proof (IH t). pose proof (cost_le_1 a b).
      unfold min3. simpl. lia.
Qed.

(** X3: the distance is 0 exactly when the two strings have the same normal
    form; in particular a string is at distance 0 from itself. *)
Theorem getEditDistance_zero (value target : jsstring) :
  getEditDistance value target = 0 <-> normalizeText value = normalizeText target.
Proof.
  rewrite getEditDistance_lev. split.
  - intros H0. apply edits_zero. rewrite <- H0. apply lev_reached.
  - intros ->. apply lev_refl.
Qed.

(** X4: the distance obeys the triangle inequality. *)
Theorem getEditDistance_triangle (a b c : jsstring) :
  getEditDistance a c <= getEditDistance a b + getEditDistance b c.
Proof.
  rewrite !getEditDistance_lev.
  apply lev_lower_bound. eapply edits_app; apply lev_reached.
Qed.

(** X5: the distance is at least the difference of the lengths of the two
    normal forms and at most the greater of them. *)
Theorem getEditDistance_bounds (value target : jsstring) :
  let n := length (normalizeText value) in
  let m := length (normalizeText target) in
  n - m <= getEditDistance value target
  /\ m - n <= getEditDistance value target
  /\ getEditDistance value target <= Nat.max n m.
Proof.
  intros n m. rewrite getEditDistance_lev.
  pose proof (edits_length _ _ _ (lev_reached (normalizeText value)
                                    (normalizeText target))) as [H1 H2].
  pose proof (lev_upper_bound (normalizeText value) (normalizeText target)).
  unfold n, m. lia.
Qed.

(** ** The threshold and the short words *)

(** X6: the tolerance is two edits for a query of fewer than 15 characters
    and more than two from 15 characters on. *)
Theorem maxDistanceFor_two (n : nat) :
  (Z.of_nat n < 2 ^ 32)%Z -> maxDistanceFor n = 2 <-> n < 15.
Proof.
  intros Hn. unfold maxDistanceFor. rewrite floorTimesPointTwo_quotient by exact Hn.
  split.
  - intros Hmax. destruct (Nat.lt_ge_cases n 15) as [|Hge]; [assumption|].
    pose proof (Nat.Div0.div_le_mono 15 n 5 Hge) as Hdiv.
    change (15 / 5) with 3 in Hdiv. lia.
  - intros Hlt. assert (n / 5 <= 2); [|lia].
    pose proof (Nat.Div0.div_le_mono n 14 5 ltac:(lia)) as Hdiv.
    change (14 / 5) with 2 in Hdiv. exact Hdiv.
Qed.

Lemma maxDistanceFor_two_witness :
  (Z.of_nat 14 < 2 ^ 32)%Z /\ maxDistanceFor 14 = 2 /\ maxDistanceFor 15 = 3.
Proof.
  split; [reflexivity|]. split.
  - apply (maxDistanceFor_two 14); [reflexivity|]. lia.
  - vm_compute. reflexivity.
Defined.

Lemma maxDistanceFor_ge_2 n : 2 <= maxDistanceFor n.
Proof. unfold maxDistanceFor. lia. Qed.

(** X7: a query of one or two characters (after normalisation) matches
    every text that has a word of one or two characters, whatever the word:
    the two are within two edits of each other. *)
Theorem matchesWithTolerance_short_word (query text w : jsstring) :
  query <> [] ->
  length (normalizeText query) <= 2 ->
  word_of w (normalizeText text) ->
  length w <= 2 ->
  matchesWithTolerance query (JsString text) = Ok true.
Proof.
  intros Hq Hlen Hword Hw. unfold matchesWithTolerance.
  destruct query as [|c q]; [congruence|].
  cbn [isEmpty receiver mbind result_bind].
  destruct (includes _ _); [reflexivity|]. f_equal.
  apply orb_true_iff. right. apply existsb_exists. exists w. split.
  - apply list_elem_of_In. apply splitWhitespace_word; [apply Hword|exact Hword].
  - apply Nat.leb_le. rewrite getEditDistance_lev, normalizeText_idem.
    rewrite (word_of_normalized _ _ Hword).
    pose proof (lev_upper_bound (normalizeText (c :: q)) w).
    pose proof (maxDistanceFor_ge_2 (length (normalizeText (c :: q)))). lia.
Qed.

Lemma matchesWithTolerance_short_word_witness :
  matchesWithTolerance (str "xy") (JsString (str "Bachelor of Arts")) = Ok true.
Proof.
  apply (matchesWithTolerance_short_word (str "xy") (str "Bachelor of Arts")
           (str "of")).
  - discriminate.
  - vm_compute. lia.
  - split; [discriminate|]. split; [repeat constructor|].
    exists (str "bachelor "), (str " arts").
    split; [reflexivity|]. split.
    + right. exists (str "bachelor"), " "%char. split; reflexivity.
    + right. exists " "%char, (str "arts"). split; reflexivity.
  - vm_compute. lia.
Defined.

(** ** Lines of a CSV file *)

Lemma needsQuotes_cons c f :
  needsQuotes (c :: f) = false ->
  isQuote c = false /\ isComma c = false /\ needsQuotes f = false.
Proof.
  unfold needsQuotes. cbn [existsb]. rewrite !orb_false_iff. tauto.
Qed.

(** A run of characters other than commas and quotes joins the value
    being read. *)
Lemma parseCSVLoop_plain_run f rest values current :
  needsQuotes f = false ->
  parseCSVLoop (f ++ rest) values current false
  = parseCSVLoop rest values (current ++ f) false.
Proof.
  revert current. induction f as [|c f IH]; intros current Hf.
  - now rewrite app_nil_r.
  - apply needsQuotes_cons in Hf as (Hq & Hc & Hf).
    cbn [app]. rewrite parseCSVLoop_plain by exact Hq.
    rewrite Hc. cbn [andb]. rewrite IH by exact Hf. now rewrite <- app_assoc.
Qed.

(** A comma outside quotes ends the value. *)
Lemma parseCSVLoop_comma rest values current :
  parseCSVLoop (commaChar :: rest) values current false
  = parseCSVLoop rest (values ++ [trim current]) [] false.
Proof. now rewrite parseCSVLoop_plain. Qed.

Lemma parseCSVLoop_quoteField field rest values :
  hasPlainChar field -> nextNotQuote rest ->
  parseCSVLoop (quoteField field ++ rest) values [] false
  = parseCSVLoop rest values field false.
Proof.
  intros Hp Hrest.
  destruct (hasPlainChar_split field Hp) as (k & c & f & -> & Hc).
  unfold quoteField. rewrite escapeQuotes_app, escapeQuotes_quotes.
  replace (([quoteChar] ++ (replicate (2 * k) quoteChar ++ escapeQuotes (c :: f))
            ++ [quoteChar]) ++ rest)
    with (replicate (2 * k) quoteChar
          ++ quoteChar :: escapeQuotes (c :: f) ++ quoteChar :: rest).
  2:{ rewrite <- !app_assoc.
      change ([quoteChar] ++ ?x ++ ?y) with ((quoteChar :: x) ++ y).
      rewrite replicate_cons_snoc, <- !app_assoc. reflexivity. }
  rewrite parseCSVLoop_quotes. cbn [app].
  rewrite parseCSVLoop_single.
  2:{ change (c :: f) with ([c] ++ f). rewrite escapeQuotes_app.
      unfold escapeQuotes at 1. cbn [flat_map]. now rewrite (isQuote_false c Hc). }
  cbn [negb]. now rewrite (parseCSVLoop_inside (c :: f) rest values _ Hrest).
Qed.

Lemma parseCSVLoop_csvField field rest values :
  (needsQuotes field = true -> hasPlainChar field) -> nextNotQuote rest ->
  parseCSVLoop (csvField field ++ rest) values [] false
  = parseCSVLoop rest values field false.
Proof.
  intros Hok Hrest. unfold csvField.
  destruct (needsQuotes field) eqn:Hn.
  - now apply parseCSVLoop_quoteField; [apply Hok|].
  - now rewrite parseCSVLoop_plain_run.
Qed.

Lemma parseCSVLoop_writeCSVLine fields : forall values,
  fields <> [] ->
  Forall (fun field => needsQuotes field = true -> hasPlainChar field) fields ->
  parseCSVLoop (writeCSVLine fields) values [] false
  = values ++ map trim fields.
Proof.
  induction fields as [|f fields IH]; intros values Hne Hok; [congruence|].
  inversion Hok as [|? ? Hf Hfs]; subst.
  unfold writeCSVLine in *. cbn [map joinWith].
  destruct fields as [|g fields].
  - cbn [map]. rewrite <- (app_nil_r (csvField f)).
    now rewrite parseCSVLoop_csvField.
  - cbn [map] in *. rewrite parseCSVLoop_csvField; [|exact Hf|discriminate].
    cbn [app]. rewrite parseCSVLoop_comma.
    rewrite IH by (discriminate || exact Hfs). now rewrite <- app_assoc.
Qed.

(** X8: a line written the CSV way reads back as its fields, trimmed: plain
    fields as they are, fields with commas or quotes in quotes with the
    inner quotes doubled.  The one condition is that a field written in
    quotes has a character other than the quote. *)
Theorem parseCSVLine_writeCSVLine (fields : list jsstring) :
  fields <> [] ->
  Forall (fun field => needsQuotes field = true -> hasPlainChar field) fields ->
  parseCSVLine (writeCSVLine fields) = map trim fields.
Proof.
  intros Hne Hok. unfold parseCSVLine.
  now rewrite parseCSVLoop_writeCSVLine.
Qed.

Lemma parseCSVLine_writeCSVLine_witness :
  parseCSVLine (writeCSVLine [str "Bio, Tech"; str " Pisa "; []; literalExample])
  = [str "Bio, Tech"; str "Pisa"; []; literalExample].
Proof.
  apply (parseCSVLine_writeCSVLine
           [str "Bio, Tech"; str " Pisa "; []; literalExample]).
  - discriminate.
  - assert (forall f, "B"%char ∈ f -> hasPlainChar f) as HB
      by (intros f Hf; exists "B"%char; split; [exact Hf|discriminate]).
    constructor; [intros _; apply HB; left|].
    constructor; [intros Hn; discriminate Hn|].
    constructor; [intros Hn; discriminate Hn|].
    constructor; [intros _; apply HB; left|constructor].
Defined.

(** X9: a quoted field made of quotes alone gains a quote: the closing
    quote pairs up with the last doubled one.  The empty quoted field reads
    as one quote. *)
Theorem parseCSVLine_quotes_only (k : nat) :
  parseCSVLine (quoteField (replicate k quoteChar))
  = [replicate (S k) quoteChar].
Proof.
  unfold parseCSVLine, quoteField. rewrite escapeQuotes_quotes.
  replace ([quoteChar] ++ replicate (2 * k) quoteChar ++ [quoteChar])
    with (replicate (2 * S k) quoteChar ++ []).
  2:{ rewrite app_nil_r. replace (2 * S k) with (S (S (2 * k))) by lia.
      cbn [replicate app]. now rewrite replicate_cons_snoc. }
  rewrite parseCSVLoop_quotes. cbn [parseCSVLoop app].
  f_equal. apply trim_noSpace. apply Forall_replicate. reflexivity.
Qed.

(** The loop of [parseCSVLine] looks one or two characters ahead: the
    induction is on a bound of the length of the line. *)
Lemma parseCSVLoop_trimmed n : forall line values current inQuotes,
  length line <= n ->
  Forall (fun v => trim v = v) values ->
  Forall (fun v => trim v = v) (parseCSVLoop line values current inQuotes)
  /\ length values < length (parseCSVLoop line values current inQuotes).
Proof.
  induction n as [|n IH]; intros line values current inQuotes Hlen Hvalues.
  - destruct line; [|simpl in Hlen; lia]. simpl. split.
    + apply Forall_app. split; [exact Hvalues|].
      constructor; [apply trim_idem|constructor].
    + rewrite length_app. simpl. lia.
  - destruct line as [|c rest].
    { simpl. split.
      - apply Forall_app. split; [exact Hvalues|].
        constructor; [apply trim_idem|constructor].
      - rewrite length_app. simpl. lia. }
    simpl in Hlen.
    assert (Forall (fun v => trim v = v) (values ++ [trim current])) as Hpush.
    { apply Forall_app. split; [exact Hvalues|].
      constructor; [apply trim_idem|constructor]. }
    assert (forall cur inQ,
              Forall (fun v => trim v = v)
                (parseCSVLoop rest (values ++ [trim current]) cur inQ)
              /\ length values
                 < length (parseCSVLoop rest (values ++ [trim current]) cur inQ))
      as Hcomma.
    { intros cur inQ.
      destruct (IH rest (values ++ [trim current]) cur inQ ltac:(lia) Hpush)
        as [H1 H2].
      split; [exact H1|]. rewrite length_app in H2. simpl in H2. lia. }
    cbn [parseCSVLoop].
    destruct rest as [|c' rest'].
    + destruct (isQuote c); [apply IH; simpl; [lia|exact Hvalues]|].
      destruct (isComma c && negb inQuotes); [apply Hcomma|].
      apply IH; simpl; [lia|exact Hvalues].
    + destruct (isQuote c && isQuote c').
      { apply IH; [simpl in *; lia|exact Hvalues]. }
      destruct (isQuote c); [apply IH; simpl in *; [lia|exact Hvalues]|].
      destruct (isComma c && negb inQuotes); [apply Hcomma|].
      apply IH; simpl in *; [lia|exact Hvalues].
Qed.

(** X10: every line, well formed or not, yields at least one value, and no
    value begins or ends with white space, quoted or not. *)
Theorem parseCSVLine_values (line : jsstring) :
  parseCSVLine line <> []
  /\ Forall (fun value => trim value = value) (parseCSVLine line).
Proof.
  destruct (parseCSVLoop_trimmed (length line) line [] [] false (le_n _)
              (List.Forall_nil _)) as [Htrim Hlen].
  split; [|exact Htrim].
  unfold parseCSVLine. intros Hnil. rewrite Hnil in Hlen. simpl in Hlen. lia.
Qed.

(** ** Datasets *)

Lemma dropWhile_all {A} (p : A -> bool) w s :
  Forall (fun c => p c = true) w -> dropWhile p (w ++ s) = dropWhile p s.
Proof. induction 1 as [|c w Hc _ IH]; [reflexivity|]. simpl. now rewrite Hc. Qed.

Lemma dropWhile_app {A} (p : A -> bool) s t :
  dropWhile p (s ++ t)
  = match dropWhile p s with
    | [] => dropWhile p t
    | _ :: _ => dropWhile p s ++ t
    end.
Proof.
  induction s as [|c s IH]; simpl; [now destruct (dropWhile p t)|].
  destruct (p c); [exact IH|reflexivity].
Qed.

Lemma trimEnd_all s w :
  Forall (fun c => isWhiteSpace c = true) w -> trimEnd (s ++ w) = trimEnd s.
Proof.
  intros Hw. unfold trimEnd. rewrite rev_app_distr.
  now rewrite dropWhile_all by now apply Forall_rev.
Qed.

(** White space around a text is lost on [trim]. *)
Lemma trim_surrounded before s after :
  Forall (fun c => isWhiteSpace c = true) before ->
  Forall (fun c => isWhiteSpace c = true) after ->
  trim (before ++ s ++ after) = trim s.
Proof.
  intros Hb Ha. unfold trim, trimStart.
  rewrite dropWhile_all by exact Hb. rewrite dropWhile_app.
  destruct (dropWhile isWhiteSpace s) as [|c r] eqn:Hs.
  - rewrite <- (app_nil_r after), dropWhile_all by exact Ha. reflexivity.
  - now apply trimEnd_all.
Qed.

(** X11: white space and blank lines before and after the dataset change
    nothing: a file that ends with a line break gives no extra record. *)
Theorem parseCSV_surrounded (before csvText after : jsstring) :
  Forall (fun c => isWhiteSpace c = true) before ->
  Forall (fun c => isWhiteSpace c = true) after ->
  parseCSV (before ++ csvText ++ after) = parseCSV csvText.
Proof.
  intros Hb Ha. unfold parseCSV. now rewrite trim_surrounded.
Qed.

Lemma parseCSV_surrounded_witness :
  parseCSV (str "Course Name
Algebra
") = parseCSV (str "Course Name
Algebra")
  /\ length (parseCSV (str "Course Name
Algebra
")) = 1.
Proof.
  split; [|reflexivity].
  apply (parseCSV_surrounded [] (str "Course Name
Algebra") (str "
")).
  - constructor.
  - repeat constructor.
Defined.

Lemma splitLinesLoop_length n : forall s current,
  length s <= n -> length (splitLinesLoop s current) = S (countLF s).
Proof.
  unfold countLF.
  induction n as [|n IH]; intros s current Hlen.
  - destruct s; [reflexivity|simpl in Hlen; lia].
  - destruct s as [|c rest]; [reflexivity|]. simpl in Hlen.
    cbn [splitLinesLoop List.filter].
    destruct (isLF c) eqn:Hc.
    + simpl. now rewrite IH by lia.
    + destruct rest as [|c' rest'].
      * now rewrite IH by (simpl; lia).
      * destruct (isCR c && isLF c') eqn:Hcr.
        -- apply andb_true_iff in Hcr as [_ Hlf].
           cbn [List.filter]. rewrite Hlf. simpl.
           now rewrite IH by (simpl in Hlen; lia).
        -- now rewrite IH by (simpl in *; lia).
Qed.

(** X12: there are as many records as the trimmed text has line feeds; a
    carriage return before a line feed belongs to the line break.  A text
    of one line, the header row or nothing at all, has no record. *)
Theorem parseCSV_length (csvText : jsstring) :
  length (parseCSV csvText) = countLF (trim csvText).
Proof.
  unfold parseCSV, splitLines.
  pose proof (splitLinesLoop_length _ (trim csvText) [] (le_n _)) as Hlen.
  destruct (splitLinesLoop (trim csvText) []) as [|headerLine dataLines].
  - discriminate Hlen.
  - rewrite length_map. simpl in Hlen. lia.
Qed.

Lemma lastIndexOf_elem headers name :
  name ∈ headers -> exists i, lastIndexOf headers name = Some i.
Proof.
  induction headers as [|header rest IH]; intros Hin.
  - now apply elem_of_nil in Hin.
  - cbn [lastIndexOf]. destruct (lastIndexOf rest name) as [i|] eqn:Hi.
    + now eexists.
    + apply elem_of_cons in Hin as [->|Hin].
      * rewrite decide_True by reflexivity. now eexists.
      * destruct (IH Hin) as [i Hi']. discriminate Hi'.
Qed.

Lemma lastIndexOf_not_elem headers name :
  name ∉ headers -> lastIndexOf headers name = None.
Proof.
  induction headers as [|header rest IH]; intros Hin; [reflexivity|].
  apply not_elem_of_cons in Hin as [Hne Hin].
  cbn [lastIndexOf]. rewrite (IH Hin). now rewrite decide_False by congruence.
Qed.

Lemma fieldOf_isString headers values name :
  name ∈ headers -> isString (fieldOf headers values name).
Proof.
  intros Hin. unfold fieldOf.
  destruct (lastIndexOf_elem headers name Hin) as [i ->]. now eexists.
Qed.

Lemma fieldOf_undefined headers values name :
  name ∉ headers -> fieldOf headers values name = JsUndefined.
Proof. intros Hin. unfold fieldOf. now rewrite lastIndexOf_not_elem. Qed.

(** X13: when the header row has the nine column names, in any order and
    among any others, every record has all its fields, whatever its line;
    when the header row lacks Course Name, no record has a [courseName],
    and when it lacks Duration every [duration] is "undefined years". *)
Theorem parseCSV_columns (csvText : jsstring) :
  (columnNames ⊆ headersOf csvText -> Forall wfCourse (parseCSV csvText))
  /\ (str "Course Name" ∉ headersOf csvText ->
      Forall (fun c => courseName c = JsUndefined) (parseCSV csvText))
  /\ (str "Duration" ∉ headersOf csvText ->
      Forall (fun c => duration c = str "undefined years") (parseCSV csvText)).
Proof.
  unfold parseCSV, headersOf.
  destruct (splitLines (trim csvText)) as [|headerLine dataLines];
    [split_and!; intros _; constructor|].
  cbn [hd]. split_and!; intros Hheader; apply List.Forall_map, Forall_forall;
    intros line _; unfold courseOfLine.
  - assert (forall name, name ∈ columnNames ->
              isString (getProp (forEachHeader (parseCSVLine headerLine) 0
                                   (parseCSVLine line) ∅) name)) as Hcol.
    { intros name Hname. rewrite getProp_forEachHeader.
      apply fieldOf_isString, Hheader, Hname. }
    unfold wfCourse; cbn [courseName universityName universityType degreeType
      language courseCode courseArea website].
    split_and!; apply Hcol; unfold columnNames; set_solver.
  - cbn [courseName]. rewrite getProp_forEachHeader.
    now apply fieldOf_undefined.
  - cbn [duration]. rewrite getProp_forEachHeader.
    now rewrite fieldOf_undefined.
Qed.

Lemma parseCSV_columns_witness :
  columnNames ⊆ headersOf sampleCsv /\ Forall wfCourse (parseCSV sampleCsv).
Proof.
  assert (columnNames ⊆ headersOf sampleCsv) as Hsub.
  { vm_compute headersOf. unfold columnNames. set_solver. }
  split; [exact Hsub|].
  exact (proj1 (parseCSV_columns sampleCsv) Hsub).
Defined.

(** ** Filtering and sorting *)

Lemma arrayFilter_sublist {A} (p : A -> result bool) l kept :
  arrayFilter p l = Ok kept -> sublist kept l.
Proof.
  revert kept. induction l as [|x l IH]; intros kept.
  - intros [= <-]. constructor.
  - cbn [arrayFilter]. destruct (p x) as [b|]; [|discriminate].
    cbn [mbind result_bind].
    destruct (arrayFilter p l) as [kept'|]; [|discriminate].
    cbn [mbind result_bind]. intros [= <-].
    destruct b; constructor; now apply IH.
Qed.

Lemma sortInsert_perm {A} (compareFn : A -> A -> result Z) x l l' :
  sortInsert compareFn x l = Ok l' -> l' ≡ₚ x :: l.
Proof.
  revert l'. induction l as [|y l IH]; intros l'.
  - now intros [= <-].
  - cbn [sortInsert]. destruct (compareFn x y) as [c|]; [|discriminate].
    cbn [mbind result_bind]. destruct (c <=? 0)%Z; [now intros [= <-]|].
    destruct (sortInsert compareFn x l) as [r|]; [|discriminate].
    cbn [mbind result_bind]. intros [= <-].
    rewrite (IH r eq_refl). apply perm_swap.
Qed.

Lemma arraySort_perm {A} (compareFn : A -> A -> result Z) l l' :
  arraySort compareFn l = Ok l' -> l' ≡ₚ l.
Proof.
  revert l'. induction l as [|x l IH]; intros l'.
  - now intros [= <-].
  - cbn [arraySort]. destruct (arraySort compareFn l) as [r|]; [|discriminate].
    cbn [mbind result_bind]. intros Hins.
    apply sortInsert_perm in Hins. now rewrite Hins, (IH r eq_refl).
Qed.

(** X14: whatever the controls and the comparator, a result of
    [getFilteredCourses] holds records of the collection only, each at
    most as often as the collection has it: it is a rearrangement of a
    part of the collection taken in order. *)
Theorem getFilteredCourses_part localeCompare (st : AppState) result :
  getFilteredCourses localeCompare st = Ok result ->
  exists kept, sublist kept (courses st) /\ result ≡ₚ kept.
Proof.
  unfold getFilteredCourses.
  destruct (arrayFilter _ (courses st)) as [kept|] eqn:Hkept; [|discriminate].
  apply arrayFilter_sublist in Hkept. cbn [mbind result_bind].
  intros Hrun. exists kept. split; [exact Hkept|].
  destruct (bool_decide (sortFilter st = str "university")).
  - destruct (arraySort _ kept) as [s1|] eqn:Hs1; [|discriminate].
    apply arraySort_perm in Hs1. cbn [mbind result_bind] in Hrun.
    destruct (bool_decide (sortFilter st = str "degree")).
    + destruct (arraySort _ s1) as [s2|] eqn:Hs2; [|discriminate].
      apply arraySort_perm in Hs2. cbn [mbind result_bind] in Hrun.
      injection Hrun as <-. now rewrite Hs2.
    + cbn [mbind result_bind] in Hrun. now injection Hrun as <-.
  - cbn [mbind result_bind] in Hrun.
    destruct (bool_decide (sortFilter st = str "degree")).
    + destruct (arraySort _ kept) as [s2|] eqn:Hs2; [|discriminate].
      apply arraySort_perm in Hs2. cbn [mbind result_bind] in Hrun.
      now injection Hrun as <-.
    + cbn [mbind result_bind] in Hrun. now injection Hrun as <-.
Qed.

Lemma getFilteredCourses_part_witness :
  exists result kept,
    getFilteredCourses codeUnitCompare (withSort (str "degree") sampleState)
    = Ok result
    /\ sublist kept (courses (withSort (str "degree") sampleState))
    /\ result ≡ₚ kept.
Proof.
  destruct (getFilteredCourses codeUnitCompare
              (withSort (str "degree") sampleState)) as [result|e] eqn:Hrun.
  - destruct (getFilteredCourses_part codeUnitCompare _ _ Hrun)
      as (kept & Hsub & Hperm).
    exists result, kept. split; [reflexivity|]. split; [exact Hsub|exact Hperm].
  - vm_compute in Hrun. discriminate Hrun.
Defined.

Lemma isEmpty_toLowerCase s : isEmpty (toLowerCase s) = isEmpty s.
Proof. now destruct s. Qed.

Lemma isEmpty_false s : isEmpty s = false <-> s <> [].
Proof. destruct s; simpl; split; congruence. Qed.

Lemma result_cases {A} (r : result A) : (exists a, r = Ok a) \/ r = Throw TypeError.
Proof. destruct r as [a|[]]; [left; now eexists|now right]. Qed.

Lemma searchPiece_throws query v :
  let piece :=
    if isEmpty (toLowerCase query) then Ok true
    else x ← receiver v; Ok (includes (toLowerCase x) (toLowerCase query)) in
  (query <> [] /\ v = JsUndefined -> piece = Throw TypeError)
  /\ (~ (query <> [] /\ v = JsUndefined) -> exists b : bool, piece = Ok b).
Proof.
  intros piece. unfold piece. rewrite isEmpty_toLowerCase.
  destruct query as [|q0 q], v as [|x]; cbn [isEmpty receiver mbind result_bind];
    (split; [intros [Hq Hv]|intros Hno]);
    first [congruence | now eexists | exfalso; apply Hno; now split].
Qed.

Lemma matchesWithTolerance_throws query v :
  (query <> [] /\ v = JsUndefined ->
   matchesWithTolerance (toLowerCase query) v = Throw TypeError)
  /\ (~ (query <> [] /\ v = JsUndefined) ->
      exists b, matchesWithTolerance (toLowerCase query) v = Ok b).
Proof.
  unfold matchesWithTolerance. rewrite isEmpty_toLowerCase.
  destruct query as [|q0 q], v as [|x]; cbn [isEmpty receiver mbind result_bind];
    (split; [intros [Hq Hv]|intros Hno]);
    first [congruence | now eexists | exfalso; apply Hno; now split | idtac].
  destruct (includes _ _); now eexists.
Qed.

Lemma missing_dec (query : jsstring) (v : jsval) :
  {query <> [] /\ v = JsUndefined} + {~ (query <> [] /\ v = JsUndefined)}.
Proof.
  destruct query as [|q0 q]; [right; intros [Hq _]; congruence|].
  destruct v as [|x]; [left; split; [discriminate|reflexivity]|].
  right. intros [_ Hv]. discriminate Hv.
Qed.

(** When [matchesCourse] throws: exactly on a record that lacks a field
    in which a search is set. *)
Lemma matchesCourse_throws (st : AppState) c :
  let run :=
    matchesCourse (toLowerCase (trim (universitySearch st)))
      (toLowerCase (trim (courseAreaSearch st)))
      (toLowerCase (trim (courseSearch st))) (degreeFilter st) c in
  (searchedFieldMissing st c -> run = Throw TypeError)
  /\ (~ searchedFieldMissing st c -> exists b, run = Ok b).
Proof.
  intros run. unfold run, matchesCourse, searchedFieldMissing.
  destruct (searchPiece_throws (trim (universitySearch st)) (universityName c))
    as [Hu1 Hu2].
  destruct (searchPiece_throws (trim (courseAreaSearch st)) (courseArea c))
    as [Ha1 Ha2].
  destruct (matchesWithTolerance_throws (trim (courseSearch st)) (courseName c))
    as [Hc1 Hc2].
  cbv zeta in Hu1, Hu2, Ha1, Ha2.
  destruct (missing_dec (trim (universitySearch st)) (universityName c))
    as [Hu|Hu].
  { rewrite (Hu1 Hu). split; [reflexivity|]. intros Hno. exfalso. tauto. }
  destruct (Hu2 Hu) as [bu ->]. cbn [mbind result_bind].
  destruct (missing_dec (trim (courseAreaSearch st)) (courseArea c))
    as [Ha|Ha].
  { rewrite (Ha1 Ha). split; [reflexivity|]. intros Hno. exfalso. tauto. }
  destruct (Ha2 Ha) as [ba ->]. cbn [mbind result_bind].
  destruct (missing_dec (trim (courseSearch st)) (courseName c)) as [Hc|Hc].
  { rewrite (Hc1 Hc). split; [reflexivity|]. intros Hno. exfalso. tauto. }
  destruct (Hc2 Hc) as [bc ->]. cbn [mbind result_bind].
  split; [intros Hmiss; exfalso; tauto|intros _; now eexists].
Qed.

Lemma arrayFilter_throws {A} (p : A -> result bool) l :
  Exists (fun x => p x = Throw TypeError) l -> arrayFilter p l = Throw TypeError.
Proof.
  induction l as [|x l IH]; intros Hex; [inversion Hex|].
  cbn [arrayFilter]. destruct (result_cases (p x)) as [[b Hb]| ->]; [|reflexivity].
  rewrite Hb. cbn [mbind result_bind].
  inversion Hex as [? ? Hx|? ? Hl]; subst; [congruence|].
  now rewrite (IH Hl).
Qed.

Lemma getFilteredCourses_missing localeCompare (st : AppState) :
  Exists (searchedFieldMissing st) (courses st) ->
  getFilteredCourses localeCompare st = Throw TypeError.
Proof.
  intros Hex. unfold getFilteredCourses.
  rewrite arrayFilter_throws; [reflexivity|].
  eapply Exists_impl; [exact Hex|]. intros c Hc.
  now apply (matchesCourse_throws st c).
Qed.

(** X15: [getFilteredCourses] throws a TypeError as soon as some record of
    the collection lacks a field in which a search is set, whether the
    record would match or not; without a sort key that is the only way in
    which it throws. *)
Theorem getFilteredCourses_throws localeCompare (st : AppState) :
  (Exists (searchedFieldMissing st) (courses st) ->
   getFilteredCourses localeCompare st = Throw TypeError)
  /\ (sortFilter st = [] ->
      ~ Exists (searchedFieldMissing st) (courses st) ->
      exists result, getFilteredCourses localeCompare st = Ok result).
Proof.
  split; [apply getFilteredCourses_missing|].
  intros Hs Hno. rewrite (getFilteredCourses_unsorted localeCompare st Hs).
  destruct (arrayFilter_total
              (matchesCourse (toLowerCase (trim (universitySearch st)))
                 (toLowerCase (trim (courseAreaSearch st)))
                 (toLowerCase (trim (courseSearch st))) (degreeFilter st))
              (courses st)) as (kept & -> & _); [|now eexists].
  apply Forall_forall. intros c Hc.
  apply (matchesCourse_throws st c). intros Hmiss. apply Hno.
  apply Exists_exists. now exists c.
Qed.

Lemma getFilteredCourses_throws_witness :
  Exists (searchedFieldMissing
            (withSearches [] [] (str "math")
               (withCourses (parseCSV namelessCsv) sampleState)))
    (parseCSV namelessCsv)
  /\ getFilteredCourses codeUnitCompare
       (withSearches [] [] (str "math")
          (withCourses (parseCSV namelessCsv) sampleState))
     = Throw TypeError
  /\ exists result,
       getFilteredCourses codeUnitCompare
         (withSearches (str "bol") [] []
            (withCourses (parseCSV namelessCsv) sampleState))
       = Ok result.
Proof.
  assert (Exists (searchedFieldMissing
            (withSearches [] [] (str "math")
               (withCourses (parseCSV namelessCsv) sampleState)))
            (parseCSV namelessCsv)) as Hex.
  { vm_compute parseCSV. apply Exists_cons_hd. right. right.
    split; [discriminate|reflexivity]. }
  split; [exact Hex|]. split.
  - exact (proj1 (getFilteredCourses_throws codeUnitCompare _) Hex).
  - apply (proj2 (getFilteredCourses_throws codeUnitCompare
                    (withSearches (str "bol") [] []
                       (withCourses (parseCSV namelessCsv) sampleState))));
      [reflexivity|].
    vm_compute. intros Hex'.
    repeat match goal with
           | H : Exists _ (_ :: _) |- _ => apply Exists_cons in H as [H|H]
           | H : Exists _ [] |- _ => now apply Exists_nil in H
           end;
      (destruct Hex' as [[H1 H2]|[[H1 H2]|[H1 H2]]];
       first [discriminate H2 | now apply H1]).
Defined.

(** ** How the filters combine *)

Lemma matchesCourse_degree universityQuery courseAreaQuery courseQuery
    degreeQuery c :
  degreeQuery <> [] ->
  matchesCourse universityQuery courseAreaQuery courseQuery degreeQuery c
  = b ← matchesCourse universityQuery courseAreaQuery courseQuery [] c;
    Ok (b && strictEq (degreeType c) degreeQuery).
Proof.
  intros Hd. unfold matchesCourse.
  destruct (if isEmpty universityQuery then _ else _) as [bu|]; [|reflexivity].
  cbn [mbind result_bind].
  destruct (if isEmpty courseAreaQuery then _ else _) as [ba|]; [|reflexivity].
  cbn [mbind result_bind].
  destruct (matchesWithTolerance courseQuery (courseName c)) as [bc|];
    [|reflexivity].
  cbn [mbind result_bind isEmpty]. rewrite andb_true_r.
  now destruct degreeQuery.
Qed.

Lemma arrayFilter_and {A} (p p' : A -> result bool) (q : A -> bool) l kept :
  (forall x, p' x = b ← p x; Ok (b && q x)) ->
  arrayFilter p l = Ok kept ->
  arrayFilter p' l = Ok (List.filter q kept).
Proof.
  intros Hp'. revert kept. induction l as [|x l IH]; intros kept.
  - now intros [= <-].
  - cbn [arrayFilter]. rewrite Hp'.
    destruct (p x) as [b|]; [|discriminate]. cbn [mbind result_bind].
    destruct (arrayFilter p l) as [kept'|]; [|discriminate].
    cbn [mbind result_bind]. intros [= <-].
    rewrite (IH kept' eq_refl). cbn [mbind result_bind].
    destruct b; cbn [andb List.filter]; [|reflexivity].
    now destruct (q x).
Qed.

(** X16: the degree filter narrows what the other controls keep: without a
    sort key, the result with a degree type selected is the result without
    it, cut down to the records of that degree type, in the same order. *)
Theorem getFilteredCourses_narrowed localeCompare (st : AppState)
    (degree : jsstring) unfiltered :
  sortFilter st = [] ->
  degree <> [] ->
  getFilteredCourses localeCompare (withDegree [] st) = Ok unfiltered ->
  getFilteredCourses localeCompare (withDegree degree st)
  = Ok (filter (fun c => degreeType c = JsString degree) unfiltered).
Proof.
  intros Hs Hd. rewrite !getFilteredCourses_unsorted by exact Hs.
  cbn [universitySearch courseAreaSearch courseSearch degreeFilter courses
       withDegree].
  intros Hrun.
  etransitivity.
  - eapply (arrayFilter_and _ _ (fun c => strictEq (degreeType c) degree));
      [|exact Hrun].
    intros c. now apply matchesCourse_degree.
  - f_equal. apply filter_decide. intros c. apply strictEq_spec.
Qed.

Lemma getFilteredCourses_narrowed_witness :
  exists unfiltered narrowed,
    getFilteredCourses codeUnitCompare
      (withDegree [] (withSearches (str "o") [] [] sampleState))
    = Ok unfiltered
    /\ getFilteredCourses codeUnitCompare
         (withDegree (str "Master") (withSearches (str "o") [] [] sampleState))
       = Ok narrowed
    /\ universityName <$> unfiltered
       = [JsString (str "Bologna"); JsString (str "Milano")]
    /\ universityName <$> narrowed = [JsString (str "Bologna")].
Proof.
  destruct (getFilteredCourses codeUnitCompare
              (withDegree [] (withSearches (str "o") [] [] sampleState)))
    as [unfiltered|e] eqn:Hrun; [|vm_compute in Hrun; discriminate Hrun].
  pose proof (getFilteredCourses_narrowed codeUnitCompare
                (withSearches (str "o") [] [] sampleState) (str "Master")
                unfiltered eq_refl ltac:(discriminate) Hrun) as Hnarrow.
  eexists _, _. split; [reflexivity|]. split; [exact Hnarrow|].
  vm_compute in Hrun. injection Hrun as <-. split; vm_compute; reflexivity.
Defined.

(** X17: the university and course area searches are plain substring tests
    on the lower-cased field, with no tolerance for typos: with the other
    controls unset, on records that have all their columns, the result is
    the records whose lower-cased university contains the trimmed,
    lower-cased university search and whose lower-cased course area
    contains the course area search, in dataset order. *)
Theorem getFilteredCourses_searches localeCompare (st : AppState) :
  trim (courseSearch st) = [] ->
  degreeFilter st = [] ->
  sortFilter st = [] ->
  Forall wfCourse (courses st) ->
  exists result,
    getFilteredCourses localeCompare st = Ok result
    /\ sublist result (courses st)
    /\ forall c, c ∈ result <->
         c ∈ courses st
         /\ substring (toLowerCase (trim (universitySearch st)))
              (toLowerCase (toStringVal (universityName c)))
         /\ substring (toLowerCase (trim (courseAreaSearch st)))
              (toLowerCase (toStringVal (courseArea c))).
Proof.
  intros Hc Hd Hs Hwf.
  rewrite (getFilteredCourses_unsorted localeCompare st Hs), Hc, Hd.
  change (toLowerCase []) with (@nil ascii).
  set (uq := toLowerCase (trim (universitySearch st))).
  set (aq := toLowerCase (trim (courseAreaSearch st))).
  rewrite (arrayFilter_pure _
             (fun c => includes (toLowerCase (toStringVal (universityName c))) uq
                       && includes (toLowerCase (toStringVal (courseArea c))) aq)).
  - eexists. split; [reflexivity|]. split.
    + rewrite (filter_decide
                 (fun c => includes (toLowerCase (toStringVal (universityName c))) uq
                           && includes (toLowerCase (toStringVal (courseArea c))) aq
                           = true) _ (courses st)) by (intros c; reflexivity).
      apply sublist_filter.
    + intros c. rewrite list_elem_of_In, filter_In, <- list_elem_of_In.
      rewrite andb_true_iff, !includes_spec. tauto.
  - eapply Forall_impl; [exact Hwf|]. intros c Hcwf.
    destruct Hcwf as (_ & [uni Huni] & _ & _ & _ & _ & [area Harea] & _).
    unfold matchesCourse. rewrite Huni, Harea.
    cbn [receiver mbind result_bind toStringVal matchesWithTolerance isEmpty].
    assert (forall (q s : jsstring),
              (if isEmpty q then Ok true
               else Ok (includes (toLowerCase s) q))
              = Ok (includes (toLowerCase s) q)) as Hpiece.
    { intros [|q0 q] s; [now rewrite includes_nil|reflexivity]. }
    rewrite !Hpiece. cbn [mbind result_bind]. now rewrite !andb_true_r.
Qed.

Lemma getFilteredCourses_searches_witness :
  exists result,
    getFilteredCourses codeUnitCompare
      (withSearches (str " SAP ") (str "sci") [] sampleState) = Ok result
    /\ courseName <$> result = [JsString (str "Physics")].
Proof.
  destruct (getFilteredCourses_searches codeUnitCompare
              (withSearches (str " SAP ") (str "sci") [] sampleState)
              eq_refl eq_refl eq_refl sampleState_wf)
    as (result & Hrun & _).
  exists result. split; [exact Hrun|].
  vm_compute in Hrun. injection Hrun as <-. reflexivity.
Defined.

Lemma getFilteredCourses_by_degree localeCompare st :
  sortFilter st = str "degree" ->
  getFilteredCourses localeCompare st
  = (filtered ← arrayFilter
       (matchesCourse (toLowerCase (trim (universitySearch st)))
          (toLowerCase (trim (courseAreaSearch st)))
          (toLowerCase (trim (courseSearch st))) (degreeFilter st))
       (courses st);
     arraySort (compareBy localeCompare degreeType) filtered).
Proof.
  intros Hs. unfold getFilteredCourses. rewrite Hs.
  destruct (arrayFilter _ _) as [filtered|]; [|reflexivity].
  rewrite (bool_decide_eq_false_2 (str "degree" = str "university"))
    by (intros Heq; discriminate Heq).
  rewrite (bool_decide_eq_true_2 (str "degree" = str "degree")) by reflexivity.
  cbn [mbind result_bind].
  destruct (arraySort _ _); reflexivity.
Qed.

(** X18: under the sort key "degree", on records that have all their
    columns, the result is the records that the filters keep, rearranged
    in non-decreasing order of [degreeType] as [localeCompare] orders it. *)
Theorem getFilteredCourses_by_degree_sorted localeCompare (st : AppState) :
  consistentComparator localeCompare ->
  Forall wfCourse (courses st) ->
  sortFilter st = str "degree" ->
  exists unsorted sorted,
    getFilteredCourses localeCompare (withSort [] st) = Ok unsorted
    /\ getFilteredCourses localeCompare st = Ok sorted
    /\ sorted ≡ₚ unsorted
    /\ StronglySorted (orderBy localeCompare degreeType) sorted.
Proof.
  intros Hcmp Hwf Hs.
  destruct (arrayFilter_total
              (matchesCourse (toLowerCase (trim (universitySearch st)))
                 (toLowerCase (trim (courseAreaSearch st)))
                 (toLowerCase (trim (courseSearch st))) (degreeFilter st))
              (courses st)) as (unsorted & Hfilter & Hsub).
  { eapply Forall_impl; [exact Hwf|]. intros c Hc.
    now apply matchesCourse_total. }
  destruct (arraySort_sorted localeCompare Hcmp degreeType unsorted)
    as (sorted & Hsort & Hperm & Hsorted).
  { apply Forall_forall. intros c Hc.
    rewrite Forall_forall in Hwf. apply (Hwf c).
    eapply elem_of_sublist; eassumption. }
  exists unsorted, sorted. split_and!.
  - now rewrite getFilteredCourses_unsorted.
  - rewrite (getFilteredCourses_by_degree localeCompare st Hs), Hfilter.
    exact Hsort.
  - exact Hperm.
  - exact Hsorted.
Qed.

Lemma getFilteredCourses_by_degree_sorted_witness :
  exists sorted,
    getFilteredCourses codeUnitCompare (withSort (str "degree") sampleState)
    = Ok sorted
    /\ StronglySorted (orderBy codeUnitCompare degreeType) sorted
    /\ courseName <$> sorted
       = [JsString (str "Physics"); JsString (str "Design");
          JsString (str "Medicine")].
Proof.
  destruct (getFilteredCourses_by_degree_sorted codeUnitCompare
              (withSort (str "degree") sampleState)
              codeUnitCompare_consistent sampleState_wf eq_refl)
    as (unsorted & sorted & _ & Hrun & _ & Hsorted).
  exists sorted. split; [exact Hrun|]. split; [exact Hsorted|].
  vm_compute in Hrun. injection Hrun as <-. reflexivity.
Defined.

(** ** The datalists *)

Lemma setAdd_elem set v x : x ∈ setAdd set v <-> x ∈ set \/ x = v.
Proof.
  unfold setAdd. case_decide as Hin.
  - split; [now left|]. intros [H| ->]; assumption.
  - rewrite elem_of_app, list_elem_of_singleton. reflexivity.
Qed.

Lemma setAdd_NoDup set v : NoDup set -> NoDup (setAdd set v).
Proof.
  intros Hset. unfold setAdd. case_decide as Hin; [exact Hset|].
  apply NoDup_app. split; [exact Hset|]. split.
  - intros x Hx Hv. apply list_elem_of_singleton in Hv. congruence.
  - apply NoDup_singleton.
Qed.

Lemma foldl_setAdd values : forall set,
  NoDup set ->
  NoDup (foldl setAdd set values)
  /\ forall x, x ∈ foldl setAdd set values <-> x ∈ set \/ x ∈ values.
Proof.
  induction values as [|v values IH]; intros set Hset; simpl.
  - split; [exact Hset|]. intros x. rewrite elem_of_nil. tauto.
  - destruct (IH (setAdd set v) (setAdd_NoDup set v Hset)) as [Hnd Hel].
    split; [exact Hnd|]. intros x.
    rewrite Hel, setAdd_elem, elem_of_cons. tauto.
Qed.

Lemma newSet_spec values :
  NoDup (newSet values) /\ forall x, x ∈ newSet values <-> x ∈ values.
Proof.
  destruct (foldl_setAdd values [] (NoDup_nil_2)) as [Hnd Hel].
  split; [exact Hnd|]. intros x. unfold newSet. rewrite Hel, elem_of_nil. tauto.
Qed.

Lemma insertString_perm x l : insertString x l ≡ₚ x :: l.
Proof.
  induction l as [|y l IH]; [reflexivity|]. cbn [insertString].
  destruct (_ <=? _)%Z; [reflexivity|]. rewrite IH. apply perm_swap.
Qed.

Lemma sortStrings_perm l : sortStrings l ≡ₚ l.
Proof.
  induction l as [|x l IH]; [reflexivity|].
  unfold sortStrings in *. cbn [foldr]. now rewrite insertString_perm, IH.
Qed.

Lemma insertString_sorted x l :
  StronglySorted codeUnitOrder l -> StronglySorted codeUnitOrder (insertString x l).
Proof.
  destruct codeUnitCompare_consistent as [Htotal Htrans].
  induction 1 as [|y l Hl IH Hy]; [repeat constructor|].
  cbn [insertString]. destruct (Z.leb_spec (codeUnitCompare x y) 0) as [Hle|Hgt].
  - constructor; [now constructor|]. constructor; [exact Hle|].
    eapply Forall_impl; [exact Hy|]. intros z Hz.
    unfold codeUnitOrder in *. eapply Htrans; eassumption.
  - constructor; [exact IH|]. rewrite insertString_perm.
    constructor; [|exact Hy]. unfold codeUnitOrder.
    destruct (Htotal x y); [lia|assumption].
Qed.

Lemma sortStrings_sorted l : StronglySorted codeUnitOrder (sortStrings l).
Proof.
  induction l as [|x l IH]; [constructor|].
  unfold sortStrings in *. cbn [foldr]. now apply insertString_sorted.
Qed.

Lemma elem_of_omap_stringOf (l : list jsval) s :
  s ∈ omap stringOf l <-> JsString s ∈ l.
Proof.
  rewrite list_elem_of_omap. split.
  - intros (v & Hv & Hs). destruct v; [discriminate|]. now injection Hs as ->.
  - intros Hs. now exists (JsString s).
Qed.

Lemma NoDup_omap_stringOf (l : list jsval) : NoDup l -> NoDup (omap stringOf l).
Proof.
  induction 1 as [|v l Hv _ IH]; [constructor|].
  cbn [omap list_omap]. destruct v as [|s]; cbn [stringOf]; [exact IH|].
  constructor; [|exact IH]. now rewrite elem_of_omap_stringOf.
Qed.

Lemma NoDup_map_JsString (l : list jsstring) : NoDup l -> NoDup (map JsString l).
Proof.
  induction l as [|s l IH]; intros Hl; [constructor|].
  apply NoDup_cons in Hl as [Hs Hl]. cbn [map]. apply NoDup_cons.
  split; [|now apply IH].
  rewrite list_elem_of_In, in_map_iff. intros (s' & [= ->] & Hin).
  now apply Hs, list_elem_of_In.
Qed.

(** The default sort keeps the values, without repeating any, and puts the
    strings first, in the order of their code units. *)
Lemma defaultSort_spec l :
  (forall v, v ∈ defaultSort l <-> v ∈ l)
  /\ (NoDup l -> NoDup (defaultSort l))
  /\ exists names rest,
       defaultSort l = map JsString names ++ rest
       /\ StronglySorted codeUnitOrder names
       /\ names ≡ₚ omap stringOf l
       /\ Forall (fun v => v = JsUndefined) rest.
Proof.
  assert (forall v, v ∈ List.filter isUndefined l <-> v = JsUndefined /\ v ∈ l)
    as Hundef.
  { intros v. rewrite list_elem_of_In, filter_In, <- list_elem_of_In.
    destruct v; simpl; split; intros [H1 H2]; (split; congruence || assumption). }
  assert (forall v, v ∈ map JsString (sortStrings (omap stringOf l))
                    <-> exists s, v = JsString s /\ v ∈ l) as Hstr.
  { intros v. rewrite list_elem_of_In, in_map_iff. split.
    - intros (s & <- & Hs). exists s. split; [reflexivity|].
      apply list_elem_of_In in Hs. rewrite sortStrings_perm in Hs.
      now apply elem_of_omap_stringOf.
    - intros (s & -> & Hs). exists s. split; [reflexivity|].
      apply list_elem_of_In. rewrite sortStrings_perm.
      now apply elem_of_omap_stringOf. }
  split_and!.
  - intros v. unfold defaultSort. rewrite elem_of_app, Hstr, Hundef.
    destruct v as [|s]; split.
    + intros [(s & Hs & _)|[_ H]]; [discriminate|exact H].
    + intros H. right. now split.
    + intros [(s' & _ & H)|[Hs _]]; [exact H|discriminate].
    + intros H. left. now exists s.
  - intros Hnd. unfold defaultSort. apply NoDup_app. split_and!.
    + apply NoDup_map_JsString. rewrite sortStrings_perm.
      now apply NoDup_omap_stringOf.
    + intros v Hv Hu. apply Hstr in Hv as (s & -> & _).
      apply Hundef in Hu as [Hu _]. discriminate.
    + rewrite (filter_decide (fun v => isUndefined v = true) isUndefined l)
        by (intros v; reflexivity).
      now apply NoDup_filter.
  - exists (sortStrings (omap stringOf l)), (List.filter isUndefined l).
    split_and!; [reflexivity|apply sortStrings_sorted|apply sortStrings_perm|].
    apply Forall_forall. intros v Hv. now apply Hundef in Hv.
Qed.

Lemma elem_of_map_field (field : course -> jsval) data v :
  v ∈ map field data <-> exists c, c ∈ data /\ field c = v.
Proof.
  rewrite list_elem_of_In, in_map_iff. split.
  - intros (c & Hc & Hin). exists c. now rewrite list_elem_of_In.
  - intros (c & Hin & Hc). exists c. now rewrite <- list_elem_of_In.
Qed.

(** X19: the datalist of universities offers every university of the
    dataset once: the array [universities] has no value twice, has exactly
    the [universityName]s of the records, the strings in the order of their
    code units, and [undefined] (when records lack the column) last. *)
Theorem universities_spec (data : list course) :
  NoDup (universities data)
  /\ (forall v, v ∈ universities data <->
                exists c, c ∈ data /\ universityName c = v)
  /\ exists names rest,
       universities data = map JsString names ++ rest
       /\ StronglySorted codeUnitOrder names
       /\ Forall (fun v => v = JsUndefined) rest.
Proof.
  unfold universities.
  destruct (newSet_spec (map universityName data)) as [Hnd Hel].
  destruct (defaultSort_spec (newSet (map universityName data)))
    as (Hsame & Hkeep & names & rest & Heq & Hsorted & _ & Hrest).
  split_and!.
  - now apply Hkeep.
  - intros v. now rewrite Hsame, Hel, elem_of_map_field.
  - now exists names, rest.
Qed.

(** X20: the datalist of course areas offers every course area of the
    dataset once and offers no empty one: the array [courseAreas] has no
    value twice, has exactly the non-empty [courseArea]s of the records,
    and has them in the order of their code units. *)
Theorem courseAreas_spec (data : list course) :
  NoDup (courseAreas data)
  /\ (forall v, v ∈ courseAreas data <->
                exists c area, c ∈ data /\ courseArea c = v
                               /\ v = JsString area /\ area <> [])
  /\ exists names,
       courseAreas data = map JsString names
       /\ StronglySorted codeUnitOrder names.
Proof.
  unfold courseAreas.
  destruct (newSet_spec (map courseArea data)) as [Hnd Hel].
  set (kept := List.filter truthy (newSet (map courseArea data))).
  assert (forall v, v ∈ kept <-> truthy v = true /\ v ∈ map courseArea data)
    as Hkept.
  { intros v. unfold kept.
    rewrite list_elem_of_In, filter_In, <- list_elem_of_In, Hel. tauto. }
  assert (forall v, truthy v = true <-> exists area, v = JsString area /\ area <> [])
    as Htruthy.
  { intros [|[|a s]]; simpl; split; try discriminate.
    - intros (area & Hv & _). discriminate.
    - intros (area & [= <-] & Hne). congruence.
    - intros _. now eexists.
    - reflexivity. }
  destruct (defaultSort_spec kept)
    as (Hsame & Hkeep & names & rest & Heq & Hsorted & _ & Hrest).
  split_and!.
  - apply Hkeep. unfold kept.
    rewrite (filter_decide (fun v => truthy v = true) truthy)
      by (intros v; reflexivity).
    now apply NoDup_filter.
  - intros v. rewrite Hsame, Hkept, Htruthy, elem_of_map_field. split.
    + intros [(area & -> & Hne) (c & Hc & Hv)]. now exists c, area.
    + intros (c & area & Hc & Hv & -> & Hne). split; [now exists area|now exists c].
  - exists names. split; [|exact Hsorted].
    destruct rest as [|v rest]; [now rewrite app_nil_r in Heq|].
    exfalso. inversion Hrest as [|? ? Hv _]; subst.
    assert (JsUndefined ∈ kept) as Hin.
    { apply Hsame. rewrite Heq. apply elem_of_app. right. left. }
    apply Hkept in Hin as [Hin _]. discriminate Hin.
Qed.

(** ** Rendering, resetting and loading *)

Lemma getFilteredCourses_initial localeCompare (st : AppState) :
  isInitialState st = true -> getFilteredCourses localeCompare st = Ok (courses st).
Proof.
  intros Hinit. unfold isInitialState in Hinit. rewrite !andb_true_iff in Hinit.
  destruct Hinit as ((((Hu & Ha) & Hc) & Hd) & Hs).
  apply isEmpty_true in Hu, Ha, Hc, Hd, Hs.
  rewrite (getFilteredCourses_unsorted localeCompare st Hs), Hu, Ha, Hc, Hd.
  change (toLowerCase []) with (@nil ascii).
  rewrite (arrayFilter_pure _ (fun _ => true)), filter_all; [reflexivity|].
  apply Forall_forall. intros c _. reflexivity.
Qed.

(** X21: what a rendering shows.  Outside the initial state every record
    that the filters keep has its card; the cards are never more than the
    count that is reported; and the empty-state indicator is shown exactly
    when there is no card. *)
Theorem renderCourses_shown localeCompare (st st' : AppState) :
  renderCourses localeCompare st = Ok st' ->
  exists filtered,
    getFilteredCourses localeCompare st = Ok filtered
    /\ (isInitialState st = false -> courseGrid st' = filtered)
    /\ length (courseGrid st') <= length filtered
    /\ resultsCount st'
       = numberToString (length filtered) ++ str " course(s) found"
    /\ (emptyStateHidden st' = false <-> courseGrid st' = []).
Proof.
  unfold renderCourses.
  destruct (getFilteredCourses localeCompare st) as [filtered|]; [|discriminate].
  cbn [mbind result_bind]. intros [= <-]. exists filtered.
  cbn [courseGrid resultsCount emptyStateHidden]. split_and!.
  - reflexivity.
  - now intros ->.
  - destruct (isInitialState st); [rewrite length_take|]; lia.
  - reflexivity.
  - rewrite negb_false_iff, Nat.eqb_eq.
    destruct (isInitialState st), filtered; simpl; split; congruence.
Qed.

Lemma renderCourses_shown_witness :
  exists st',
    renderCourses codeUnitCompare (withDegree (str "Doctorate") sampleState)
    = Ok st'
    /\ courseGrid st' = []
    /\ emptyStateHidden st' = false
    /\ resultsCount st' = str "0 course(s) found".
Proof.
  destruct (renderCourses codeUnitCompare
              (withDegree (str "Doctorate") sampleState)) as [st'|e] eqn:Hrun;
    [|vm_compute in Hrun; discriminate Hrun].
  destruct (renderCourses_shown codeUnitCompare _ _ Hrun)
    as (filtered & Hf & Hall & _ & Hcount & Hempty).
  exists st'. split; [reflexivity|].
  vm_compute in Hf. injection Hf as <-.
  assert (courseGrid st' = []) as Hgrid by (apply Hall; reflexivity).
  split; [exact Hgrid|]. split; [now apply Hempty|exact Hcount].
Defined.

(** X22: rendering is a recomputation from the collection and the
    controls: it leaves both as they are, and rendering again changes
    nothing. *)
Theorem renderCourses_again localeCompare (st st' : AppState) :
  renderCourses localeCompare st = Ok st' ->
  renderCourses localeCompare st' = Ok st'
  /\ courses st' = courses st
  /\ universitySearch st' = universitySearch st
  /\ courseAreaSearch st' = courseAreaSearch st
  /\ courseSearch st' = courseSearch st
  /\ degreeFilter st' = degreeFilter st
  /\ sortFilter st' = sortFilter st.
Proof.
  unfold renderCourses, getFilteredCourses, isInitialState.
  destruct (arrayFilter _ (courses st) ≫= _) as [filtered|] eqn:Hf;
    [|discriminate].
  cbn [mbind result_bind]. intros [= <-].
  cbn [courses universitySearch courseAreaSearch courseSearch degreeFilter
       sortFilter]. rewrite Hf. cbn [mbind result_bind]. now split_and!.
Qed.

Lemma renderCourses_again_witness :
  exists st',
    renderCourses codeUnitCompare (withSort (str "university") sampleState)
    = Ok st'
    /\ renderCourses codeUnitCompare st' = Ok st'.
Proof.
  destruct (renderCourses codeUnitCompare
              (withSort (str "university") sampleState)) as [st'|e] eqn:Hrun;
    [|vm_compute in Hrun; discriminate Hrun].
  exists st'. split; [reflexivity|].
  exact (proj1 (renderCourses_again codeUnitCompare _ _ Hrun)).
Defined.

(** X23: a reset never fails, whatever the records and the controls were:
    it clears the five controls, keeps the collection, shows the first 10
    records of the collection and reports the number of all of them. *)
Theorem resetFilters_spec localeCompare (st : AppState) :
  exists st',
    resetFilters localeCompare st = Ok st'
    /\ universitySearch st' = [] /\ courseAreaSearch st' = []
    /\ courseSearch st' = [] /\ degreeFilter st' = [] /\ sortFilter st' = []
    /\ courses st' = courses st
    /\ courseGrid st' = take 10 (courses st)
    /\ resultsCount st'
       = numberToString (length (courses st)) ++ str " course(s) found".
Proof.
  unfold resetFilters, renderCourses.
  rewrite getFilteredCourses_initial by reflexivity.
  cbn [mbind result_bind]. eexists. split; [reflexivity|]. now split_and!.
Qed.

Lemma searchedFieldMissing_withCourses records st c :
  searchedFieldMissing (withCourses records st) c <-> searchedFieldMissing st c.
Proof. reflexivity. Qed.

(** X24: when the dataset arrives while the controls are unset, the page
    has the parsed records as its collection, shows the first 10 of them,
    reports the number of all of them, and has the two datalists filled
    from them. *)
Theorem loadCourses_loaded localeCompare (csvText : jsstring) (page : Page) :
  isInitialState (appState page) = true ->
  let page' := loadCourses localeCompare (Ok csvText) page in
  courses (appState page') = parseCSV csvText
  /\ courseGrid (appState page') = take 10 (parseCSV csvText)
  /\ resultsCount (appState page')
     = numberToString (length (parseCSV csvText)) ++ str " course(s) found"
  /\ universityOptions page' = populateUniversityOptions (parseCSV csvText)
  /\ courseAreaOptions page' = populateCourseAreaOptions (parseCSV csvText).
Proof.
  intros Hinit page'. unfold page', loadCourses, renderCourses.
  cbn [appState].
  assert (isInitialState (withCourses (parseCSV csvText) (appState page)) = true)
    as Hinit' by exact Hinit.
  rewrite (getFilteredCourses_initial localeCompare _ Hinit'), Hinit'.
  cbn [mbind result_bind appState universityOptions courseAreaOptions].
  now split_and!.
Qed.

Lemma loadCourses_loaded_witness :
  let page' := loadCourses codeUnitCompare (Ok sampleCsv) blankPage in
  length (courses (appState page')) = 3
  /\ resultsCount (appState page') = str "3 course(s) found".
Proof.
  destruct (loadCourses_loaded codeUnitCompare sampleCsv blankPage eq_refl)
    as (Hc & _ & Hcount & _).
  cbv zeta. split.
  - rewrite Hc. vm_compute. reflexivity.
  - rewrite Hcount. vm_compute. reflexivity.
Defined.

(** X25: when "Unable to load courses." is shown.  After a failed fetch
    the page is as it was but for that message.  The message is also shown
    for a dataset that did arrive, when a record of it lacks a field in
    which a search is set: the collection and the datalists are then those
    of the new dataset, and the cards are the old ones. *)
Theorem loadCourses_unable localeCompare (page : Page) :
  (forall e,
     loadCourses localeCompare (Throw e) page = unableToLoad page)
  /\ (forall csvText,
        Exists (searchedFieldMissing (appState page)) (parseCSV csvText) ->
        let page' := loadCourses localeCompare (Ok csvText) page in
        resultsCount (appState page') = str "Unable to load courses."
        /\ courses (appState page') = parseCSV csvText
        /\ courseGrid (appState page') = courseGrid (appState page)
        /\ universityOptions page' = populateUniversityOptions (parseCSV csvText)
        /\ courseAreaOptions page' = populateCourseAreaOptions (parseCSV csvText)).
Proof.
  split; [reflexivity|]. intros csvText Hex page'.
  unfold page', loadCourses, renderCourses. cbn [appState].
  rewrite getFilteredCourses_missing by exact Hex.
  cbn [mbind result_bind]. now split_and!.
Qed.

Lemma loadCourses_unable_witness :
  let page :=
    {| appState := withSearches [] [] (str "math") (appState blankPage);
       universityOptions := [];
       courseAreaOptions := [] |} in
  let page' := loadCourses codeUnitCompare (Ok namelessCsv) page in
  resultsCount (appState page') = str "Unable to load courses."
  /\ length (courses (appState page')) = 2.
Proof.
  cbv zeta.
  destruct (proj2 (loadCourses_unable codeUnitCompare
              {| appState := withSearches [] [] (str "math") (appState blankPage);
                 universityOptions := [];
                 courseAreaOptions := [] |}) namelessCsv) as (Hmsg & Hc & _).
  - vm_compute parseCSV. apply Exists_cons_hd. right. right.
    split; [discriminate|reflexivity].
  - split; [exact Hmsg|]. rewrite Hc. vm_compute. reflexivity.
Defined.
